(** * DevDocs client: search ranking, text extraction and page listing

    A shallow embedding of [DevDocsClient] (src/devdocs_mcp_server.py):
    the memoized catalog fetch, the ranked entry search, the layered
    text extraction, the page-info extractor and the per-entry page
    aggregator, with the properties the specification states for them.

    Conventions of the embedding.
    - A Python [str] is a [string]; its characters are the code points
      below 256, and every string function below follows CPython on that
      range.
    - A JSON object read with [d.get(k, default)] is a [gmap] keyed by
      strings.
    - A coroutine is a function from the client's state to an outcome and
      the next state; [await] is sequential composition.  The upstream
      host, the optional cleaner module, the pandoc subprocess and the
      BeautifulSoup parser are the environment: they are arguments. *)

From Stdlib Require Import ZArith NArith Lia Ascii.
From Stdlib Require String.
From stdpp Require Import base option list gmap strings pretty sorting.

Local Open Scope Z_scope.
Local Open Scope nat_scope.

Set Warnings "-register-all,-clear-no-such-hyp".

(** ** Python strings *)

Module Str.

Definition code (c : ascii) : N := N_of_ascii c.

(** [str.lower] on one code point: A-Z and the Latin-1 capitals
    (U+00C0-U+00DE except the multiplication sign U+00D7) move up by 32. *)
Definition lower_char (c : ascii) : ascii :=
  let n := code c in
  if ((65 <=? n) && (n <=? 90) ||
      (192 <=? n) && (n <=? 222) && negb (n =? 215))%N
  then ascii_of_N (n + 32) else c.

Fixpoint lower (s : string) : string :=
  match s with
  | EmptyString => EmptyString
  | String c s' => String (lower_char c) (lower s')
  end.

(** [s.startswith(p)] *)
Fixpoint startswith (p s : string) : bool :=
  match p, s with
  | EmptyString, _ => true
  | String _ _, EmptyString => false
  | String a p', String b s' => bool_decide (a = b) && startswith p' s'
  end.

(** [q in s]: [q] occurs in [s] as a contiguous substring. *)
Fixpoint contains (q s : string) : bool :=
  startswith q s ||
  match s with
  | EmptyString => false
  | String _ s' => contains q s'
  end.

(** The order of [<] on [str]: lexicographic by code point. *)
Definition ltb (s t : string) : bool :=
  match String.compare s t with Lt => true | _ => false end.

(** [c.isspace()] for a code point below 256. *)
Definition is_space (c : ascii) : bool :=
  let n := code c in
  ((9 <=? n) && (n <=? 13) || (28 <=? n) && (n <=? 32) ||
   (n =? 133) || (n =? 160))%N.

(** The line boundaries of [str.splitlines] below 256: LF, VT, FF, CR,
    FS, GS, RS and NEL (CR LF counts once, see [splitlines]). *)
Definition is_linebreak (c : ascii) : bool :=
  let n := code c in
  ((10 <=? n) && (n <=? 13) || (28 <=? n) && (n <=? 30) || (n =? 133))%N.

Definition is_empty (s : string) : bool :=
  match s with EmptyString => true | _ => false end.

Fixpoint lstrip (s : string) : string :=
  match s with
  | EmptyString => EmptyString
  | String c s' => if is_space c then lstrip s' else s
  end.

Fixpoint rstrip (s : string) : string :=
  match s with
  | EmptyString => EmptyString
  | String c s' =>
      let r := rstrip s' in
      if is_space c && is_empty r then EmptyString else String c r
  end.

(** [s.strip()] *)
Definition strip (s : string) : string := rstrip (lstrip s).

(** Puts [c] in front of the first piece of a split under way. *)
Definition cons_head (c : ascii) (l : list string) : list string :=
  match l with
  | [] => [String c EmptyString]
  | x :: xs => String c x :: xs
  end.

(** [s.splitlines()]: no piece for the end of the string after a final
    line boundary, CR LF is one boundary. *)
Fixpoint splitlines (s : string) : list string :=
  match s with
  | EmptyString => []
  | String c s' =>
      if is_linebreak c then
        match s' with
        | String c2 s'' =>
            if bool_decide (c = "013"%char) && bool_decide (c2 = "010"%char)
            then EmptyString :: splitlines s''
            else EmptyString :: splitlines s'
        | EmptyString => [EmptyString]
        end
      else cons_head c (splitlines s')
  end.

(** [s.split("  ")]: the separator is two spaces, matched left to right
    without overlap; the result is never empty. *)
Fixpoint split2 (s : string) : list string :=
  match s with
  | EmptyString => [EmptyString]
  | String c s' =>
      match s' with
      | String c2 s'' =>
          if bool_decide (c = " "%char) && bool_decide (c2 = " "%char)
          then EmptyString :: split2 s''
          else cons_head c (split2 s')
      | EmptyString => [String c EmptyString]
      end
  end.

(** [sep.join(l)] *)
Fixpoint join (sep : string) (l : list string) : string :=
  match l with
  | [] => EmptyString
  | [x] => x
  | x :: rest => x +:+ sep +:+ join sep rest
  end.

(** [''.join(l)] *)
Fixpoint concat (l : list string) : string :=
  match l with
  | [] => EmptyString
  | x :: rest => x +:+ concat rest
  end.

End Str.

(** ** Exceptions *)

(** The exception classes the client can meet, with their direct base
    class in CPython, httpx and bs4. *)
Inductive exc_class : Type :=
  | BaseException | Exception
  | CancelledError | KeyboardInterrupt
  | ImportError | ModuleNotFoundError
  | OSError | FileNotFoundError | PermissionError
  | SubprocessError | CalledProcessError | TimeoutExpired
  | ValueError | UnicodeError | UnicodeDecodeError | JSONDecodeError
  | AttributeError | LookupError | IndexError | RuntimeError | RecursionError
  | HTTPError | HTTPStatusError | RequestError | TransportError
  | TimeoutException | NetworkError | ConnectError
  | ParserRejectedMarkup.

Global Instance exc_class_eq_dec : EqDecision exc_class.
Proof. solve_decision. Defined.

Definition base_class (c : exc_class) : option exc_class :=
  match c with
  | BaseException => None
  | Exception | CancelledError | KeyboardInterrupt => Some BaseException
  | ImportError | OSError | SubprocessError | ValueError | AttributeError
  | LookupError | RuntimeError | HTTPError | ParserRejectedMarkup =>
      Some Exception
  | IndexError => Some LookupError
  | ModuleNotFoundError => Some ImportError
  | FileNotFoundError | PermissionError => Some OSError
  | CalledProcessError | TimeoutExpired => Some SubprocessError
  | UnicodeError | JSONDecodeError => Some ValueError
  | UnicodeDecodeError => Some UnicodeError
  | RecursionError => Some RuntimeError
  | HTTPStatusError | RequestError => Some HTTPError
  | TransportError => Some RequestError
  | TimeoutException | NetworkError => Some TransportError
  | ConnectError => Some NetworkError
  end.

(** [issubclass(c, d)]; no chain above is longer than seven classes. *)
Fixpoint subclass_upto (fuel : nat) (c d : exc_class) : bool :=
  bool_decide (c = d) ||
  match fuel with
  | O => false
  | S fuel' =>
      match base_class c with
      | Some b => subclass_upto fuel' b d
      | None => false
      end
  end.

Definition issubclass : exc_class → exc_class → bool := subclass_upto 8.

(** A raised exception: its class and [str(e)]. *)
Record exc : Type := mk_exc { exc_cls : exc_class; exc_msg : string }.

(** [except d:] catches [e]. *)
Definition caught_by (d : exc_class) (e : exc) : bool :=
  issubclass (exc_cls e) d.

(** [except (d1, d2, ...):] *)
Definition caught_by_any (ds : list exc_class) (e : exc) : bool :=
  existsb (λ d, caught_by d e) ds.

(** What a call produces: a value, or a raised exception. *)
Inductive outcome (A : Type) : Type :=
  | Ok (a : A)
  | Raise (e : exc).
Global Arguments Ok {A} a.
Global Arguments Raise {A} e.

Definition is_ok {A} (o : outcome A) : bool :=
  match o with Ok _ => true | Raise _ => false end.

(** ** The data of the documentation host *)

(** A documentation set of the catalog. *)
Record DocSet : Type := mk_docset {
  ds_name : string; ds_slug : string; ds_type : string;
  ds_version : option string
}.

(** An entry of an index is a JSON object with string fields [name],
    [path] and [type], any of which may be absent. *)
Abbreviation Entry := (gmap string string).

(** [d.get(k, default)] *)
Definition dict_get {V} (d : gmap string V) (k : string) (dflt : V) : V :=
  default dflt (d !! k).

(** The object of [index.json].  Its [types] member is never read by the
    client and is left out; [entries] may be absent. *)
Record Index : Type := mk_index { ix_entries : option (list Entry) }.

(** What [response.json()] can return: [null], the catalog array, or an
    index object. *)
Inductive json : Type :=
  | JNull
  | JCatalog (docs : list DocSet)
  | JIndex (ix : Index).

(** An HTTP response: the status code, [response.text] and the result of
    [response.json()] on that body. *)
Record Response : Type := mk_response {
  status_code : Z;
  text : string;
  json_body : outcome json
}.

(** The upstream host together with the transport: what the request
    number [n] of this client, a GET for [url], produces.  [client.get]
    either raises or returns a response. *)
Definition Upstream : Type := nat → string → outcome Response.

(** [response.raise_for_status()]: httpx raises [HTTPStatusError] unless
    the status is 2xx. *)
Definition is_success (r : Response) : bool :=
  ((200 <=? status_code r) && (status_code r <? 300))%Z.

Definition raise_for_status (r : Response) : outcome unit :=
  if is_success r then Ok tt
  else Raise (mk_exc HTTPStatusError "HTTP status error").

(** ** The client's state and its coroutines *)

(** [_docs_cache] holds Python's [None] ([JNull]) or what
    [response.json()] returned.  [requests] is the log of the URLs this
    client has requested, oldest first; the transport object itself is
    not modelled beyond it. *)
Record Client : Type := mk_client {
  base_url : string;
  docs_cache : json;
  requests : list string
}.

Definition new_client (url : string) : Client :=
  {| base_url := url; docs_cache := JNull; requests := [] |}.

(** A coroutine of the client. *)
Definition Co (A : Type) : Type := Client → outcome A * Client.

Definition ret {A} (a : A) : Co A := λ c, (Ok a, c).

Definition raise {A} (e : exc) : Co A := λ c, (Raise e, c).

Definition bind {A B} (m : Co A) (k : A → Co B) : Co B :=
  λ c, match m c with
       | (Ok a, c') => k a c'
       | (Raise e, c') => (Raise e, c')
       end.

Definition lift {A} (o : outcome A) : Co A := λ c, (o, c).

(** [try: m except cls: h] *)
Definition try_except {A} (m : Co A) (cls : exc_class) (h : exc → Co A)
  : Co A :=
  λ c, match m c with
       | (Ok a, c') => (Ok a, c')
       | (Raise e, c') => if caught_by cls e then h e c' else (Raise e, c')
       end.

Declare Scope co_scope.
Delimit Scope co_scope with co.
Notation "x <- m ;; k" := (bind m (λ x, k))
  (at level 100, m at next level, right associativity) : co_scope.
Notation "m ;;; k" := (bind m (λ _, k))
  (at level 100, right associativity) : co_scope.
Local Open Scope co_scope.

Section Client.

Variable up : Upstream.

(** [await self.client.get(url)]: logs the request and asks the host. *)
Definition http_get (url : string) : Co Response :=
  λ c, (up (length (requests c)) url,
        {| base_url := base_url c; docs_cache := docs_cache c;
           requests := requests c ++ [url] |}).

Definition set_docs_cache (v : json) : Co unit :=
  λ c, (Ok tt, {| base_url := base_url c; docs_cache := v;
                  requests := requests c |}).

Definition catalog_url (c : Client) : string := base_url c +:+ "/docs.json".

Definition index_url (c : Client) (slug : string) : string :=
  base_url c +:+ "/docs/" +:+ slug +:+ "/index.json".

Definition content_url (c : Client) (slug path : string) : string :=
  base_url c +:+ "/docs/" +:+ slug +:+ "/" +:+ path +:+ ".html".

(** [DevDocsClient.get_available_docs] *)
Definition get_available_docs : Co json :=
  λ c,
    (match docs_cache c with
     | JNull =>
         response <- http_get (catalog_url c) ;;
         lift (raise_for_status response) ;;;
         v <- lift (json_body response) ;;
         set_docs_cache v
     | _ => ret tt
     end ;;;
     (λ c', (Ok (docs_cache c'), c'))) c.

(** [DevDocsClient.get_doc_index] *)
Definition get_doc_index (slug : string) : Co json :=
  λ c,
    (response <- http_get (index_url c slug) ;;
     lift (raise_for_status response) ;;;
     lift (json_body response)) c.

(** [DevDocsClient.get_doc_content] *)
Definition get_doc_content (slug path : string) : Co string :=
  λ c,
    (response <- http_get (content_url c slug path) ;;
     lift (raise_for_status response) ;;;
     ret (text response)) c.

(** [index.get("entries", [])]: only a dict has [get]. *)
Definition index_entries (index : json) : outcome (list Entry) :=
  match index with
  | JIndex ix => Ok (default [] (ix_entries ix))
  | JNull => Raise (mk_exc AttributeError
                      "'NoneType' object has no attribute 'get'")
  | JCatalog _ => Raise (mk_exc AttributeError
                           "'list' object has no attribute 'get'")
  end.

End Client.

(** ** [sorted(l, key=f)] *)

(** Python's [sorted] is a stable sort that compares keys with [<] only.
    It is modelled by insertion sort: every element is put in front of
    the already sorted rest, after the elements whose key is strictly
    smaller and before the first one whose key is not. *)
Section Sorted.

Context {A K : Type} (key : A → K) (lt : K → K → bool).

Fixpoint insert_by (x : A) (l : list A) : list A :=
  match l with
  | [] => [x]
  | y :: l' =>
      if lt (key y) (key x) then y :: insert_by x l' else x :: y :: l'
  end.

Fixpoint sorted (l : list A) : list A :=
  match l with
  | [] => []
  | x :: l' => insert_by x (sorted l')
  end.

(** [a] may stand before [b]: the key of [b] is not below that of [a]. *)
Definition key_le (a b : A) : Prop := lt (key b) (key a) = false.

End Sorted.

(** ** Entry search *)

(** [<] on the tuples [(tier, name)] that [sort_key] returns: the first
    components decide unless they are equal. *)
Definition key_ltb (a b : nat * string) : bool :=
  if bool_decide (a.1 = b.1) then Str.ltb a.2 b.2 else a.1 <? b.1.

(** The local function [sort_key] of [search_doc_entries]; [query_lower]
    is the variable it closes over. *)
Definition sort_key (query_lower : string) (entry : Entry) : nat * string :=
  let name := Str.lower (dict_get entry "name" "") in
  if bool_decide (name = query_lower) then (0, name)
  else if Str.startswith query_lower name then (1, name)
  else (2, name).

(** The test of the filtering loop: [query_lower in name]. *)
Definition is_match (query_lower : string) (entry : Entry) : Prop :=
  Str.contains query_lower (Str.lower (dict_get entry "name" "")) = true.

Global Instance is_match_dec q e : Decision (is_match q e).
Proof. unfold is_match. apply _. Defined.

Section Search.

Variable up : Upstream.

(** [DevDocsClient.search_doc_entries] *)
Definition search_doc_entries (slug query : string) : Co (list Entry) :=
  index <- get_doc_index up slug ;;
  entries <- lift (index_entries index) ;;
  let query_lower := Str.lower query in
  let matches := filter (is_match query_lower) entries in
  ret (take 20 (sorted (sort_key query_lower) key_ltb matches)).

End Search.

(** The host answers the next request of [c], for the index of [slug],
    with a 2xx response whose body parses to the index [ix]. *)
Definition index_served (up : Upstream) (c : Client) (slug : string)
    (ix : Index) : Prop :=
  ∃ r, up (length (requests c)) (index_url c slug) = Ok r ∧
       is_success r = true ∧ json_body r = Ok (JIndex ix).

(** The entries of an index as the client reads them. *)
Definition entries_of (ix : Index) : list Entry := default [] (ix_entries ix).

(** The lowercased name of an entry. *)
Definition folded_name (e : Entry) : string :=
  Str.lower (dict_get e "name" "").

(** The three tiers of the specification, for a lowercased query [q]. *)
Definition exact_match (q : string) (e : Entry) : Prop :=
  folded_name e = q.

Definition prefix_match (q : string) (e : Entry) : Prop :=
  Str.startswith q (folded_name e) = true ∧ folded_name e ≠ q.




(** *** A concrete host for the examples *)

Definition entry (name path type : string) : Entry :=
  <["name" := name]> (<["path" := path]> (<["type" := type]> ∅)).

Definition demo_index : Index :=
  {| ix_entries := Some
       [ entry "Reactivity" "reactivity" "Guide";
         entry "react" "react-b" "API";
         entry "Preact" "preact" "Guide";
         entry "React" "react-a" "API";
         entry "reactor" "reactor" "API";
         entry "Stores" "stores" "Guide";
         entry "useReact" "use-react" "API" ] |}.

Definition ok_json (v : json) : outcome Response :=
  Ok {| status_code := 200; text := ""; json_body := Ok v |}.

Definition ok_text (body : string) : outcome Response :=
  Ok {| status_code := 200; text := body;
        json_body := Raise (mk_exc JSONDecodeError "Expecting value") |}.

Definition not_found : outcome Response :=
  Ok {| status_code := 404; text := "Not Found";
        json_body := Raise (mk_exc JSONDecodeError "Expecting value") |}.

(** A host that serves [demo_index] for the slug [svelte] and nothing
    else. *)
Definition demo_host : Upstream := λ _ url,
  if bool_decide (url = "http://localhost:9292/docs/svelte/index.json")
  then ok_json (JIndex demo_index) else not_found.

Definition demo_client : Client := new_client "http://localhost:9292".

(** An index with [n] entries named alike, to exercise the truncation. *)
Definition numbered_entries (n : nat) : list Entry :=
  (λ i, entry "bind:value" ("bind-" +:+ pretty i) "Directive") <$> seq 0 n.

Definition wide_host : Upstream := λ _ _,
  ok_json (JIndex {| ix_entries := Some (numbered_entries 25) |}).

(** ** The catalog and its memo *)

(** What one round trip for the catalog yields to a client in state [c]:
    the parsed body, or the exception of the transport, of the status
    check or of the JSON parser. *)
Definition catalog_reply (up : Upstream) (c : Client) : outcome json :=
  match up (length (requests c)) (catalog_url c) with
  | Raise e => Raise e
  | Ok r =>
      match raise_for_status r with
      | Raise e => Raise e
      | Ok _ => json_body r
      end
  end.

(** [n] calls of [get_available_docs] one after the other: their
    outcomes, in order, and the state they leave. *)
Fixpoint calls (up : Upstream) (n : nat) (c : Client)
  : list (outcome json) * Client :=
  match n with
  | O => ([], c)
  | S n' =>
      let '(o, c1) := get_available_docs up c in
      let '(os, c2) := calls up n' c1 in
      (o :: os, c2)
  end.

Definition demo_catalog : list DocSet :=
  [ {| ds_name := "Svelte"; ds_slug := "svelte"; ds_type := "simple";
       ds_version := None |};
    {| ds_name := "Tailwind CSS"; ds_slug := "tailwindcss";
       ds_type := "tailwindcss"; ds_version := Some "3" |} ].

(** A host whose catalog request fails the first time it is asked (the
    request number 0) and succeeds from then on. *)
Definition flaky_host : Upstream := λ n url,
  if bool_decide (url = "http://localhost:9292/docs.json") then
    match n with
    | O => Raise (mk_exc ConnectError "All connection attempts failed")
    | S _ => ok_json (JCatalog demo_catalog)
    end
  else not_found.

(** ** The parsed markup *)

(** The tree BeautifulSoup builds: a text string ([NavigableString],
    [CData]: what [get_text] collects), any other string (comment,
    doctype, declaration, processing instruction: what [get_text] skips)
    or a tag with its name, its attribute dictionary and its children.
    A parsed fragment, the [BeautifulSoup] object, is the list of its
    top-level nodes. *)
Inductive node : Type :=
  | NText (s : string)
  | NOther (s : string)
  | NElem (name : string) (attrs : gmap string string) (children : list node).

Abbreviation soup := (list node).

Definition mem (x : string) (l : list string) : bool := bool_decide (x ∈ l).

(** The text strings below a node, in document order. *)
Fixpoint strings (n : node) : list string :=
  match n with
  | NText s => [s]
  | NOther _ => []
  | NElem _ _ children =>
      (fix go (l : list node) : list string :=
         match l with
         | [] => []
         | x :: rest => strings x ++ go rest
         end) children
  end.

Definition strings_of (l : soup) : list string := flat_map strings l.

(** [tag.get_text()] *)
Definition get_text (l : soup) : string := Str.concat (strings_of l).

(** [tag.get_text(strip=True)]: every string stripped, the empty ones
    dropped, joined without separator. *)
Definition get_text_strip (l : soup) : string :=
  Str.concat (filter (λ s, s ≠ "") (Str.strip <$> strings_of l)).

(** [tag.find_all(names)]: the tags below, in document order, whose name
    is one of [names]. *)
Fixpoint find_all_in (names : list string) (n : node) : list node :=
  match n with
  | NText _ | NOther _ => []
  | NElem name _ children =>
      (if mem name names then [n] else []) ++
      (fix go (l : list node) : list node :=
         match l with
         | [] => []
         | x :: rest => find_all_in names x ++ go rest
         end) children
  end.

Definition find_all (names : list string) (l : soup) : list node :=
  flat_map (find_all_in names) l.

(** The tree once every tag found by [soup(names)] has been through
    [decompose()]: the tags with these names are gone with all they
    contain, at every depth. *)
Fixpoint decompose_in (names : list string) (n : node) : list node :=
  match n with
  | NText _ | NOther _ => [n]
  | NElem name attrs children =>
      if mem name names then []
      else [NElem name attrs
              ((fix go (l : list node) : list node :=
                  match l with
                  | [] => []
                  | x :: rest => decompose_in names x ++ go rest
                  end) children)]
  end.

Definition decompose_all (names : list string) (l : soup) : soup :=
  flat_map (decompose_in names) l.

(** The children of a tag; a string has none. *)
Definition contents (n : node) : soup :=
  match n with NElem _ _ children => children | _ => [] end.

Definition tag_name (n : node) : string :=
  match n with NElem name _ _ => name | _ => "" end.

(** [tag.get(k, default)] *)
Definition tag_get (n : node) (k dflt : string) : string :=
  match n with NElem _ attrs _ => dict_get attrs k dflt | _ => dflt end.

(** The tokens of a [class] attribute: its value split at whitespace. *)
Fixpoint words_go (cur : string) (s : string) : list string :=
  match s with
  | EmptyString => if Str.is_empty cur then [] else [String.rev cur]
  | String c s' =>
      if Str.is_space c
      then (if Str.is_empty cur then [] else [String.rev cur]) ++ words_go "" s'
      else words_go (String c cur) s'
  end.

Definition class_list (n : node) : list string :=
  words_go "" (tag_get n "class" "").

(** All tags below, in document order. *)
Fixpoint tags_in (n : node) : list node :=
  match n with
  | NText _ | NOther _ => []
  | NElem _ _ children =>
      n :: (fix go (l : list node) : list node :=
              match l with
              | [] => []
              | x :: rest => tags_in x ++ go rest
              end) children
  end.

Definition tags (l : soup) : list node := flat_map tags_in l.

(** [soup.select_one(selector)] for the two forms of selector the client
    uses: a tag name, or a dot and a class name.  The first tag in
    document order that matches, if any. *)
Definition select_one (selector : string) (l : soup) : option node :=
  match selector with
  | String "." cls => head (filter (λ n, cls ∈ class_list n) (tags l))
  | _ => head (filter (λ n, tag_name n = selector) (tags l))
  end.

(** ** The local tools *)

(** What the machine offers besides the network.
    - [docs_cleaner html]: importing [DocsCleaner] from
      [scripts.clean_docs] and calling [clean_html(html,
      preserve_structure=False)]; a missing module raises
      [ModuleNotFoundError].
    - [pandoc html]: [subprocess.run] of pandoc with [check=True] and a
      timeout; the value is [result.stdout].
    - [html_parser html]: [BeautifulSoup(html, 'html.parser')]. *)
Record Toolchain : Type := mk_toolchain {
  docs_cleaner : string → outcome string;
  pandoc : string → outcome string;
  html_parser : string → outcome soup
}.

Definition obind {A B} (o : outcome A) (k : A → outcome B) : outcome B :=
  match o with
  | Ok a => k a
  | Raise e => Raise e
  end.

Declare Scope outcome_scope.
Delimit Scope outcome_scope with out.
Notation "x <- m ;; k" := (obind m (λ x, k))
  (at level 100, m at next level, right associativity) : outcome_scope.

(** ** Text extraction *)

(** One strategy of [extract_text_content]: a [try] block that may
    [return] a text ([Some]), fall through to the code after it ([None],
    also when an exception of one of the classes of its [except] clause
    was raised), or let an exception escape. *)
Definition attempt (body : outcome (option string)) (handled : list exc_class)
  : outcome (option string) :=
  match body with
  | Ok r => Ok r
  | Raise e => if caught_by_any handled e then Ok None else Raise e
  end.

(** The final fallback on the parsed fragment: drop the script and style
    tags, take the text, strip every line, cut the lines at double
    spaces, strip the pieces and join the non-empty ones with one
    space. *)
Definition basic_text (parsed : soup) : string :=
  let text := get_text (decompose_all ["script"; "style"] parsed) in
  let lines := Str.strip <$> Str.splitlines text in
  let chunks := Str.strip <$> flat_map Str.split2 lines in
  Str.join " " (filter (λ chunk, chunk ≠ "") chunks).

Section Extraction.

Variable tc : Toolchain.

(** [DevDocsClient.extract_text_content] *)
Definition extract_text_content (html : string) : outcome string :=
  (first <- attempt
     (markdown <- docs_cleaner tc html ;;
      if negb (Str.is_empty markdown) && negb (Str.is_empty (Str.strip markdown))
      then Ok (Some markdown) else Ok None)
     [ImportError] ;;
   match first with
   | Some markdown => Ok markdown
   | None =>
       second <- attempt
         (stdout <- pandoc tc html ;;
          if negb (Str.is_empty stdout) then Ok (Some stdout) else Ok None)
         [CalledProcessError; FileNotFoundError; TimeoutExpired] ;;
       match second with
       | Some stdout => Ok stdout
       | None =>
           parsed <- html_parser tc html ;;
           Ok (basic_text parsed)
       end
   end)%out.

End Extraction.

(** ** Page info *)

(** A section heading as [extract_page_info] records it. *)
Record Heading : Type := mk_heading {
  h_text : string;
  h_level : Z;
  h_id : string
}.

(** The dictionary [extract_page_info] returns: its two keys are fixed. *)
Record PageInfo : Type := mk_page_info {
  pi_title : option string;
  pi_sections : list Heading
}.

Definition title_selectors : list string :=
  ["h1"; "title"; ".page-title"; ".doc-title"; ".main-title"].

Definition heading_names : list string := ["h2"; "h3"; "h4"; "h5"; "h6"].

(** [int(c)] for one character. *)
Definition int_of_char (c : ascii) : outcome Z :=
  let n := Str.code c in
  if ((48 <=? n) && (n <=? 57))%N then Ok (Z.of_N n - 48)%Z
  else Raise (mk_exc ValueError "invalid literal for int() with base 10").

(** [int(heading.name[1])] *)
Definition heading_level (name : string) : outcome Z :=
  match name with
  | String _ (String d _) => int_of_char d
  | _ => Raise (mk_exc IndexError "string index out of range")
  end.

(** The loop over the title selectors: the first selector whose first
    match has text after stripping gives the title. *)
Fixpoint find_title (selectors : list string) (parsed : soup) : option string :=
  match selectors with
  | [] => None
  | selector :: rest =>
      match select_one selector parsed with
      | Some title_elem =>
          if negb (Str.is_empty (get_text_strip (contents title_elem)))
          then Some (get_text_strip (contents title_elem))
          else find_title rest parsed
      | None => find_title rest parsed
      end
  end.

(** The loop over the headings found, [sections] being the list built so
    far. *)
Fixpoint collect_sections (sections : list Heading) (headings : list node)
  : outcome (list Heading) :=
  match headings with
  | [] => Ok sections
  | heading :: rest =>
      let text := get_text_strip (contents heading) in
      if negb (Str.is_empty text) then
        (level <- heading_level (tag_name heading) ;;
         let heading_id := tag_get heading "id" "" in
         collect_sections
           (sections ++ [{| h_text := text; h_level := level;
                            h_id := heading_id |}]) rest)%out
      else collect_sections sections rest
  end.

Section PageInfo.

Variable tc : Toolchain.

(** [DevDocsClient.extract_page_info] *)
Definition extract_page_info (html : string) : outcome PageInfo :=
  (parsed <- html_parser tc html ;;
   let title := find_title title_selectors parsed in
   sections <- collect_sections [] (find_all heading_names parsed) ;;
   Ok {| pi_title := title; pi_sections := sections |})%out.

End PageInfo.

(** ** Page listing *)

(** A value of a page dictionary. *)
Inductive pyval : Type :=
  | VNone
  | VStr (s : string)
  | VSections (l : list Heading).

(** A page of the listing: a dictionary with the keys [name], [path],
    [type], [title], [sections] and, after a failure, [error]. *)
Abbreviation Page := (gmap string pyval).

Definition title_value (t : option string) : pyval :=
  match t with Some s => VStr s | None => VNone end.

Section Listing.

Variable up : Upstream.
Variable tc : Toolchain.

(** The body of the loop of [list_all_docset_pages] for one entry: the
    page it appends. *)
Definition page_of_entry (slug : string) (include_sections : bool)
    (entry : Entry) : Co Page :=
  let path := dict_get entry "path" "" in
  let name := dict_get entry "name" "" in
  let entry_type := dict_get entry "type" "" in
  let page_info : Page :=
    <["name" := VStr name]> (<["path" := VStr path]>
      (<["type" := VStr entry_type]> (<["title" := VNone]>
        (<["sections" := VSections []]> ∅)))) in
  if include_sections && negb (Str.is_empty path) then
    try_except
      (html_content <- get_doc_content up slug path ;;
       page_details <- lift (extract_page_info tc html_content) ;;
       ret (<["sections" := VSections (pi_sections page_details)]>
              (<["title" := title_value (pi_title page_details)]> page_info)))
      Exception
      (λ e, ret (<["error" := VStr ("Could not fetch content: " +:+ exc_msg e)]>
                   page_info))
  else ret page_info.

(** The loop, [pages] being the list built so far. *)
Fixpoint process_entries (slug : string) (include_sections : bool)
    (pages : list Page) (entries : list Entry) : Co (list Page) :=
  match entries with
  | [] => ret pages
  | entry :: rest =>
      page_info <- page_of_entry slug include_sections entry ;;
      process_entries slug include_sections (pages ++ [page_info]) rest
  end.

(** [DevDocsClient.list_all_docset_pages] *)
Definition list_all_docset_pages (slug : string) (include_sections : bool)
  : Co (list Page) :=
  try_except
    (index <- get_doc_index up slug ;;
     entries <- lift (index_entries index) ;;
     process_entries slug include_sections [] entries)
    Exception
    (λ e, raise (mk_exc Exception
                   ("Failed to list pages for " +:+ slug +:+ ": " +:+ exc_msg e))).

End Listing.

(** *** Markup and tools for the examples *)

Definition elem (name : string) (children : soup) : node :=
  NElem name ∅ children.

Definition script_style_fragment : string :=
  "<script>x()</script><style>y{}</style><p>Hello</p>".

Definition script_style_soup : soup :=
  [ elem "script" [NText "x()"]; elem "style" [NText "y{}"];
    elem "p" [NText "Hello"] ].

Definition headings_fragment : string :=
  "<h1>Intro</h1><h2>A</h2><h3>A.1</h3><h2>B</h2>".

Definition headings_soup : soup :=
  [ elem "h1" [NText "Intro"]; elem "h2" [NText "A"];
    elem "h3" [NText "A.1"]; elem "h2" [NText "B"] ].

(** The trees [html.parser] builds for the fragments of the examples;
    any other text is one text node. *)
Definition parse_table (html : string) : outcome soup :=
  if bool_decide (html = script_style_fragment) then Ok script_style_soup
  else if bool_decide (html = headings_fragment) then Ok headings_soup
  else if bool_decide (html = "<![") then
    Raise (mk_exc ParserRejectedMarkup "expected name token")
  else Ok [NText html].

(** A machine without the cleaner module and without pandoc. *)
Definition bare_tools : Toolchain :=
  {| docs_cleaner := λ _, Raise (mk_exc ModuleNotFoundError
                                   "No module named 'scripts.clean_docs'");
     pandoc := λ _, Raise (mk_exc FileNotFoundError
                             "[Errno 2] No such file or directory: 'pandoc'");
     html_parser := parse_table |}.

(** The same machine with a pandoc binary that may not be executed. *)
Definition locked_tools : Toolchain :=
  {| docs_cleaner := docs_cleaner bare_tools;
     pandoc := λ _, Raise (mk_exc PermissionError
                             "[Errno 13] Permission denied: 'pandoc'");
     html_parser := parse_table |}.

(** *** What the specification says of the strategies *)

(** A strategy whose every failure is one its [except] clause names. *)
Definition fails_only_with (handled : list exc_class) (o : outcome string)
  : Prop :=
  ∀ e, o = Raise e → caught_by_any handled e = true.

Definition cleaner_handled : list exc_class := [ImportError].

Definition pandoc_handled : list exc_class :=
  [CalledProcessError; FileNotFoundError; TimeoutExpired].

(** The cleaner gave a usable text. *)
Definition usable (markdown : string) : bool :=
  negb (Str.is_empty markdown) && negb (Str.is_empty (Str.strip markdown)).

(** The first two strategies return nothing: each one is unavailable,
    fails with a handled exception or yields no usable output. *)
Definition cleaner_silent (tc : Toolchain) (html : string) : Prop :=
  match docs_cleaner tc html with
  | Ok markdown => usable markdown = false
  | Raise e => caught_by_any cleaner_handled e = true
  end.

Definition pandoc_silent (tc : Toolchain) (html : string) : Prop :=
  match pandoc tc html with
  | Ok stdout => stdout = ""
  | Raise e => caught_by_any pandoc_handled e = true
  end.

(** *** What the specification says of the naive strategy *)

(** The text strings that lie outside every tag named in [names], in
    document order. *)
Fixpoint visible_in (names : list string) (n : node) : list string :=
  match n with
  | NText s => [s]
  | NOther _ => []
  | NElem name _ children =>
      if mem name names then []
      else (fix go (l : list node) : list string :=
              match l with
              | [] => []
              | x :: rest => visible_in names x ++ go rest
              end) children
  end.

Definition visible (names : list string) (l : soup) : list string :=
  flat_map (visible_in names) l.

(** The same tree with the content of every tag named in [names]
    replaced by [f] of it. *)
Fixpoint rewrite_in (names : list string) (f : soup → soup) (n : node)
  : node :=
  match n with
  | NText _ | NOther _ => n
  | NElem name attrs children =>
      if mem name names then NElem name attrs (f children)
      else NElem name attrs
             ((fix go (l : list node) : list node :=
                 match l with
                 | [] => []
                 | x :: rest => rewrite_in names f x :: go rest
                 end) children)
  end.

Definition rewrite_tags (names : list string) (f : soup → soup) (l : soup)
  : soup :=
  rewrite_in names f <$> l.

(** The pieces the naive strategy joins, from the text it kept. *)
Definition chunks_of (text : string) : list string :=
  filter (λ chunk, chunk ≠ "")
    (Str.strip <$> flat_map Str.split2 (Str.strip <$> Str.splitlines text)).

Fixpoint all_chars (P : ascii → bool) (s : string) : bool :=
  match s with
  | EmptyString => true
  | String c s' => P c && all_chars P s'
  end.

Definition first_char (s : string) : option ascii :=
  match s with EmptyString => None | String c _ => Some c end.

Fixpoint last_char (s : string) : option ascii :=
  match s with
  | EmptyString => None
  | String c EmptyString => Some c
  | String _ s' => last_char s'
  end.

Definition is_blank (c : ascii) : bool := bool_decide (c = " "%char).

(** No two spaces in a row. *)
Fixpoint no_double_space (s : string) : bool :=
  match s with
  | EmptyString => true
  | String c s' =>
      negb (is_blank c && from_option is_blank false (first_char s'))
      && no_double_space s'
  end.

Definition not_space_at (o : option ascii) : Prop :=
  ∀ c, o = Some c → Str.is_space c = false.

(** A piece of text with collapsed white space: no line boundary, no two
    spaces in a row, no white space at either end. *)
Definition collapsed (s : string) : Prop :=
  all_chars (λ c, negb (Str.is_linebreak c)) s = true ∧
  no_double_space s = true ∧
  not_space_at (first_char s) ∧ not_space_at (last_char s).

(** *** What the specification says of the outline *)

(** The heading elements and their levels. *)
Definition level_of_name (name : string) : option Z :=
  if bool_decide (name = "h1") then Some 1%Z
  else if bool_decide (name = "h2") then Some 2%Z
  else if bool_decide (name = "h3") then Some 3%Z
  else if bool_decide (name = "h4") then Some 4%Z
  else if bool_decide (name = "h5") then Some 5%Z
  else if bool_decide (name = "h6") then Some 6%Z
  else None.

(** The trimmed text of a tag. *)
Definition trimmed_text (n : node) : string := get_text_strip (contents n).

(** The section a tag stands for: a heading of level 2 to 6 whose trimmed
    text is not empty gives its text, level and id; any other tag gives
    none. *)
Definition section_of (n : node) : option Heading :=
  match level_of_name (tag_name n) with
  | Some level =>
      if bool_decide (2 ≤ level ≤ 6)%Z && negb (Str.is_empty (trimmed_text n))
      then Some {| h_text := trimmed_text n; h_level := level;
                   h_id := tag_get n "id" "" |}
      else None
  | None => None
  end.

(** Specification of the sections: the tags of the fragment scanned in
    document order, each kept heading recorded once, where it stands. *)
Definition outline (l : soup) : list Heading := omap section_of (tags l).

(** *** What the specification says of the listing *)

(** The entry has a non-empty path. *)
Definition has_path (entry : Entry) : bool :=
  negb (Str.is_empty (dict_get entry "path" "")).

(** The minimal page of an entry. *)
Definition base_page (entry : Entry) : Page :=
  <["name" := VStr (dict_get entry "name" "")]>
    (<["path" := VStr (dict_get entry "path" "")]>
      (<["type" := VStr (dict_get entry "type" "")]>
        (<["title" := VNone]> (<["sections" := VSections []]> ∅)))).

Definition page_with_details (entry : Entry) (d : PageInfo) : Page :=
  <["sections" := VSections (pi_sections d)]>
    (<["title" := title_value (pi_title d)]> (base_page entry)).

Definition page_with_error (entry : Entry) (e : exc) : Page :=
  <["error" := VStr ("Could not fetch content: " +:+ exc_msg e)]>
    (base_page entry).

(** What fetching the content at [url] with the request number [n] and
    deriving the page info from it yields. *)
Definition details_at (up : Upstream) (tc : Toolchain) (n : nat)
    (url : string) : outcome PageInfo :=
  (response <- up n url ;;
   _ <- raise_for_status response ;;
   extract_page_info tc (text response))%out.

(** The page of an entry by its own outcome alone. *)
Definition page_by_outcome (entry : Entry) (o : outcome PageInfo) : Page :=
  match o with
  | Ok d => page_with_details entry d
  | Raise e => page_with_error entry e
  end.

(** The number of the content request of the entry at position [i],
    for a client in state [c] when the listing starts: after the request
    for the index and one for each earlier entry with a path. *)
Definition fetch_number (c : Client) (entries : list Entry) (i : nat) : nat :=
  length (requests c) + 1 + length (filter (λ e, has_path e = true) (take i entries)).

(** The exceptions of the environment are errors: instances of
    [Exception], not the signals ([KeyboardInterrupt], task
    cancellation) that derive from [BaseException] only. *)
Definition ordinary_host (up : Upstream) : Prop :=
  ∀ n url e, up n url = Raise e → caught_by Exception e = true.

Definition ordinary_parser (tc : Toolchain) : Prop :=
  ∀ html e, html_parser tc html = Raise e → caught_by Exception e = true.

(** *** A documentation set for the examples *)

Definition page_a : string := "<h1>Alpha</h1><h2>Use</h2>".

Definition page_a_soup : soup :=
  [elem "h1" [NText "Alpha"]; elem "h2" [NText "Use"]].

Definition listing_index : Index :=
  {| ix_entries := Some
       [ entry "A" "a" "Guide"; entry "B" "missing" "Guide";
         entry "Overview" "" "Guide"; entry "C" "broken" "API";
         entry "D" "a" "API" ] |}.

(** The host of the docset [demo]: the page [a] exists, [broken] is
    served with markup the parser rejects, anything else is not found. *)
Definition listing_host : Upstream := λ _ url,
  if bool_decide (url = "http://localhost:9292/docs/demo/index.json")
  then ok_json (JIndex listing_index)
  else if bool_decide (url = "http://localhost:9292/docs/demo/a.html")
  then ok_text page_a
  else if bool_decide (url = "http://localhost:9292/docs/demo/broken.html")
  then ok_text "<!["
  else not_found.

Definition listing_tools : Toolchain :=
  {| docs_cleaner := docs_cleaner bare_tools;
     pandoc := pandoc bare_tools;
     html_parser := λ html,
       if bool_decide (html = page_a) then Ok page_a_soup
       else parse_table html |}.

(** The state of a client after one more request. *)
Definition logged (c : Client) (url : string) : Client :=
  {| base_url := base_url c; docs_cache := docs_cache c;
     requests := requests c ++ [url] |}.

(** The state after several requests. *)
Definition logged_all (c : Client) (urls : list string) : Client :=
  {| base_url := base_url c; docs_cache := docs_cache c;
     requests := requests c ++ urls |}.

(** The URL of the content of an entry. *)
Definition entry_url (c : Client) (slug : string) (entry : Entry) : string :=
  content_url c slug (dict_get entry "path" "").

(** The content requests of a listing: one for each entry with a path,
    in the order of the index. *)
Definition content_requests (c : Client) (slug : string)
    (entries : list Entry) : list string :=
  entry_url c slug <$> filter (λ e, has_path e = true) entries.

(** Specification of the listing with sections: every entry gives one
    page, by its own outcome; [n] is the number of the next request. *)
Fixpoint pages_from (up : Upstream) (tc : Toolchain) (c : Client)
    (slug : string) (n : nat) (entries : list Entry) : list Page :=
  match entries with
  | [] => []
  | entry :: rest =>
      if has_path entry
      then page_by_outcome entry (details_at up tc n (entry_url c slug entry))
             :: pages_from up tc c slug (S n) rest
      else base_page entry :: pages_from up tc c slug n rest
  end.

(** The keys every page has. *)
Definition page_keys : list string :=
  ["name"; "path"; "type"; "title"; "sections"].

(** The forms a page of the listing can take for its entry. *)
Definition page_shape (include_sections : bool) (entry : Entry)
    (page : Page) : Prop :=
  page = base_page entry ∨
  include_sections = true ∧ has_path entry = true ∧
  ((∃ d, page = page_with_details entry d) ∨
   (∃ e, page = page_with_error entry e)).

(** *** What the specification says of the title *)

(** What one selector offers as a title: the trimmed text of its first
    match, when there is a match and the text is not empty. *)
Definition title_candidate (selector : string) (parsed : soup)
  : option string :=
  match select_one selector parsed with
  | Some t => if Str.is_empty (trimmed_text t) then None
              else Some (trimmed_text t)
  | None => None
  end.

(** A page with an empty first [h1], a second [h1] and a [title]. *)
Definition two_h1_soup : soup :=
  [ elem "h1" [NText "  "]; elem "h1" [NText "Real"];
    elem "title" [NText " Doc "];
    NElem "div" {["class" := "note page-title"]} [NText "Banner"] ].

(** ** The tool adapter *)

(** [TextContent(type=..., text=...)] *)
Record TextContent : Type := mk_text_content {
  tc_type : string;
  tc_text : string
}.

(** [[TextContent(type="text", text=s)]] *)
Definition text_reply (s : string) : list TextContent :=
  [{| tc_type := "text"; tc_text := s |}].

(** [not v] for an argument read with [arguments.get(k)]: absent or the
    empty string. *)
Definition falsy (v : option string) : bool :=
  match v with None => true | Some s => Str.is_empty s end.

Definition newline : string := String "010" "".

Section Adapter.

Variable up : Upstream.
Variable tc : Toolchain.

(** The value of [DEVDOCS_URL], or its default. *)
Variable devdocs_url : string.

(** The bullet that starts a result line, a character outside the code
    points modelled. *)
Variable bullet : string.

(** One line of the search results. *)
Definition search_line (entry : Entry) : string :=
  let name := dict_get entry "name" "Unknown" in
  let path := dict_get entry "path" "" in
  let entry_type := dict_get entry "type" "" in
  let type_str :=
    if Str.is_empty entry_type then "" else " [" +:+ entry_type +:+ "]" in
  bullet +:+ " " +:+ name +:+ type_str +:+ " - path: `" +:+ path +:+ "`"
    +:+ newline.

(** The branch of [call_tool] for the tool [search_docs]; the arguments
    are strings, as the input schema says.  The client is created for
    the call; its final state is returned beside the reply. *)
Definition call_tool_search_docs (arguments : gmap string string)
  : outcome (list TextContent) * Client :=
  let devdocs := new_client devdocs_url in
  let slug := arguments !! "slug" in
  let query := arguments !! "query" in
  if falsy slug || falsy query then
    (Ok (text_reply "Error: Both 'slug' and 'query' are required"), devdocs)
  else
    let slug := default "" slug in
    let query := default "" query in
    try_except
      (matches <- search_doc_entries up slug query ;;
       if bool_decide (matches = []) then
         ret (text_reply ("No matches found for '" +:+ query +:+ "' in "
                          +:+ slug +:+ " documentation"))
       else
         ret (text_reply
                (foldl (λ result entry, result +:+ search_line entry)
                   ("Search results for '" +:+ query +:+ "' in " +:+ slug
                    +:+ ":" +:+ newline +:+ newline)
                   matches)))
      Exception
      (λ e, ret (text_reply ("Error searching " +:+ slug +:+ ": "
                             +:+ exc_msg e)))
      devdocs.

(** The branch of [call_tool] for the tool [get_doc_content]. *)
Definition call_tool_get_doc_content (arguments : gmap string string)
  : outcome (list TextContent) * Client :=
  let devdocs := new_client devdocs_url in
  let slug := arguments !! "slug" in
  let path := arguments !! "path" in
  let format_type := dict_get arguments "format" "text" in
  if falsy slug || falsy path then
    (Ok (text_reply "Error: Both 'slug' and 'path' are required"), devdocs)
  else
    let slug := default "" slug in
    let path := default "" path in
    try_except
      (html_content <- get_doc_content up slug path ;;
       if bool_decide (format_type = "html") then ret (text_reply html_content)
       else
         text_content <- lift (extract_text_content tc html_content) ;;
         ret (text_reply text_content))
      Exception
      (λ e, ret (text_reply ("Error getting content for " +:+ slug +:+ "/"
                             +:+ path +:+ ": " +:+ exc_msg e)))
      devdocs.

End Adapter.

(** The body of a response parses, or fails with an error. *)
Definition ordinary_json (up : Upstream) : Prop :=
  ∀ n url r e, up n url = Ok r → json_body r = Raise e →
    caught_by Exception e = true.

(** The local tools fail with errors only. *)
Definition ordinary_tools (tc : Toolchain) : Prop :=
  ∀ html e,
    (docs_cleaner tc html = Raise e ∨ pandoc tc html = Raise e ∨
     html_parser tc html = Raise e) →
    caught_by Exception e = true.

(** A host that serves one page, [intro], of the docset [svelte]. *)
Definition page_host : Upstream := λ _ url,
  if bool_decide (url = "http://localhost:9292/docs/svelte/intro.html")
  then ok_text script_style_fragment else not_found.

Definition args (l : list (string * string)) : gmap string string :=
  list_to_map l.

(** *** Spellings that differ in case only *)

(** A capital letter among the code points below 256: A to Z and the
    Latin-1 capitals. *)
Definition is_capital (c : ascii) : bool :=
  let n := Str.code c in
  ((65 <=? n) && (n <=? 90) ||
   (192 <=? n) && (n <=? 222) && negb (n =? 215))%N.

(** The small letter of a capital: 32 code points up. *)
Definition small_of (c : ascii) : ascii := ascii_of_N (Str.code c + 32).

(** The same character, or a capital and its small letter. *)
Definition same_letter (a b : ascii) : bool :=
  bool_decide (a = b)
  || is_capital a && bool_decide (b = small_of a)
  || is_capital b && bool_decide (a = small_of b).

(** Two strings that are the same up to the case of their letters. *)
Fixpoint same_spelling (s t : string) : bool :=
  match s, t with
  | EmptyString, EmptyString => true
  | String a s', String b t' => same_letter a b && same_spelling s' t'
  | _, _ => false
  end.
(** * Properties *)

(** ** String functions on concrete inputs *)

Example lower_mixed : Str.lower "ReAct.Component_9" = "react.component_9".
Proof. reflexivity. Qed.

Example contains_infix : Str.contains "act" "react" = true.
Proof. reflexivity. Qed.

Example contains_empty_query : Str.contains "" "" = true.
Proof. reflexivity. Qed.

Example splitlines_crlf :
  Str.splitlines (String "a" (String "013" (String "010" (String "010" "b"))))
  = ["a"; ""; "b"].
Proof. reflexivity. Qed.

Example split2_three_spaces : Str.split2 "a   b" = ["a"; " b"].
Proof. reflexivity. Qed.

Example strip_both : Str.strip "  a b  " = "a b".
Proof. reflexivity. Qed.

(** ** Facts about [sorted] *)

Section SortedFacts.

Context {A K : Type} (key : A → K) (lt : K → K → bool).

Lemma insert_by_split x l :
  ∃ l1 l2, l = l1 ++ l2 ∧ insert_by key lt x l = l1 ++ x :: l2 ∧
           Forall (λ y, lt (key y) (key x) = true) l1.
Proof.
  induction l as [|y l IH]; simpl.
  - by exists [], [].
  - destruct (lt (key y) (key x)) eqn:Hlt.
    + destruct IH as (l1 & l2 & -> & -> & Hall).
      exists (y :: l1), l2. split_and!; [done..|]. by constructor.
    + by exists [], (y :: l).
Qed.

Lemma insert_by_perm x l : insert_by key lt x l ≡ₚ x :: l.
Proof.
  destruct (insert_by_split x l) as (l1 & l2 & -> & -> & _).
  by rewrite Permutation_middle.
Qed.

Lemma sorted_perm l : sorted key lt l ≡ₚ l.
Proof.
  induction l as [|x l IH]; simpl; [done|].
  by rewrite insert_by_perm, IH.
Qed.

Lemma sorted_length l : length (sorted key lt l) = length l.
Proof. by rewrite sorted_perm. Qed.

Lemma sorted_elem_of x l : x ∈ sorted key lt l ↔ x ∈ l.
Proof. by rewrite sorted_perm. Qed.

(** *** Stability: a class of elements keeps its order *)


Section Stable.

Hypothesis lt_irrefl : ∀ k, lt k k = false.

Context `{!EqDecision K}.



End Stable.

(** *** Order: with a strict total order on the keys the result ascends *)

Section Ordered.

Hypothesis lt_trans : ∀ a b c, lt a b = true → lt b c = true → lt a c = true.
Hypothesis lt_asym : ∀ a b, lt a b = true → lt b a = false.
Hypothesis lt_total : ∀ a b, lt a b = false → lt b a = false → a = b.

Lemma key_le_trans a b c :
  key_le key lt a b → key_le key lt b c → key_le key lt a c.
Proof.
  unfold key_le. intros Hab Hbc.
  destruct (lt (key c) (key a)) eqn:Hca; [|done].
  destruct (lt (key a) (key b)) eqn:Hab'.
  - by rewrite (lt_trans _ _ _ Hca Hab') in Hbc.
  - rewrite (lt_total _ _ Hab Hab') in Hbc. congruence.
Qed.

Lemma insert_by_sorted x l :
  StronglySorted (key_le key lt) l → StronglySorted (key_le key lt) (insert_by key lt x l).
Proof.
  induction 1 as [|y l Hl IH Hy]; simpl.
  - repeat constructor.
  - destruct (lt (key y) (key x)) eqn:Hlt.
    + constructor; [done|].
      destruct (insert_by_split x l) as (l1 & l2 & -> & -> & _).
      apply Forall_app in Hy as [Hy1 Hy2].
      apply Forall_app. split; [done|]. constructor; [|done].
      by apply lt_asym.
    + constructor; [by constructor|]. constructor; [done|].
      eapply Forall_impl; [exact Hy|]. intros z Hz.
      by apply key_le_trans with y.
Qed.

Lemma sorted_ascending l : StronglySorted (key_le key lt) (sorted key lt l).
Proof.
  induction l as [|x l IH]; simpl; [constructor|].
  by apply insert_by_sorted.
Qed.

End Ordered.

End SortedFacts.



(** ** The order on sort keys *)



Lemma ltb_asym s t : Str.ltb s t = true → Str.ltb t s = false.
Proof.
  unfold Str.ltb. rewrite (String.compare_antisym t s).
  by destruct (String.compare s t).
Qed.

Lemma ltb_total s t : Str.ltb s t = false → Str.ltb t s = false → s = t.
Proof.
  unfold Str.ltb. rewrite (String.compare_antisym t s).
  destruct (String.compare s t) eqn:Hc; simpl; try done.
  intros _ _. by apply String.compare_eq_iff.
Qed.

Lemma ltb_leb s t : Str.ltb s t = true → String.le s t.
Proof.
  unfold Str.ltb, String.le, String.leb.
  by destruct (String.compare s t).
Qed.

Lemma ltb_trans s t u :
  Str.ltb s t = true → Str.ltb t u = true → Str.ltb s u = true.
Proof.
  intros Hst Htu.
  assert (String.le s u) as Hsu.
  { transitivity t; by apply ltb_leb. }
  destruct (Str.ltb s u) eqn:Hlt; [done|].
  assert (s = u) as ->.
  { unfold String.le, String.leb in Hsu. unfold Str.ltb in Hlt.
    destruct (String.compare s u) eqn:Hc; try done.
    by apply String.compare_eq_iff. }
  apply ltb_asym in Hst. congruence.
Qed.


Lemma key_ltb_asym a b : key_ltb a b = true → key_ltb b a = false.
Proof.
  unfold key_ltb. repeat case_bool_decide; try congruence.
  - apply ltb_asym.
  - intros ?%Nat.ltb_lt. apply Nat.ltb_ge. lia.
Qed.

Lemma key_ltb_total a b : key_ltb a b = false → key_ltb b a = false → a = b.
Proof.
  unfold key_ltb. destruct a as [m s], b as [n t]; simpl.
  repeat case_bool_decide; try congruence.
  - intros ??. f_equal; [done|]. by apply ltb_total.
  - intros ?%Nat.ltb_ge ?%Nat.ltb_ge. lia.
Qed.

Lemma key_ltb_trans a b c :
  key_ltb a b = true → key_ltb b c = true → key_ltb a c = true.
Proof.
  unfold key_ltb. destruct a as [m s], b as [n t], c as [o u]; simpl.
  repeat case_bool_decide; subst; try congruence;
    rewrite ?Nat.ltb_lt; try lia; try done.
  apply ltb_trans.
Qed.

(** ** Entry search *)

Section SearchFacts.

Variable up : Upstream.

Lemma get_doc_index_served c slug ix :
  index_served up c slug ix →
  ∃ c', get_doc_index up slug c = (Ok (JIndex ix), c') ∧
        requests c' = requests c ++ [index_url c slug] ∧
        docs_cache c' = docs_cache c ∧ base_url c' = base_url c.
Proof.
  intros (r & Hr & Hs & Hj). eexists. split.
  - unfold get_doc_index, bind, http_get, lift, raise_for_status. cbn.
    rewrite Hr. cbn. rewrite Hs. cbn. rewrite Hj. reflexivity.
  - done.
Qed.

(** What the search returns once the index has arrived. *)
Lemma search_doc_entries_served c slug query ix :
  index_served up c slug ix →
  (search_doc_entries up slug query c).1
  = Ok (take 20 (sorted (sort_key (Str.lower query)) key_ltb
                   (filter (is_match (Str.lower query)) (entries_of ix)))).
Proof.
  intros (c' & Hc' & _)%get_doc_index_served.
  unfold search_doc_entries, bind. by rewrite Hc'.
Qed.

End SearchFacts.

Example search_react :
  (search_doc_entries demo_host "svelte" "REACT" demo_client).1
  = Ok [ entry "react" "react-b" "API";
         entry "React" "react-a" "API";
         entry "Reactivity" "reactivity" "Guide";
         entry "reactor" "reactor" "API";
         entry "Preact" "preact" "Guide";
         entry "useReact" "use-react" "API" ].
Proof. vm_compute. reflexivity. Qed.


Lemma startswith_empty s : Str.startswith "" s = true.
Proof. by destruct s. Qed.

Lemma contains_empty s : Str.contains "" s = true.
Proof. destruct s; simpl; done. Qed.


Lemma sort_key_exact q e : exact_match q e → (sort_key q e).1 = 0.
Proof.
  unfold exact_match, folded_name, sort_key. intros ->.
  by rewrite bool_decide_eq_true_2.
Qed.




(** The ranked list before truncation ascends in the key order. *)
Lemma ranked_ascending q (l : list Entry) :
  StronglySorted (key_le (sort_key q) key_ltb) (sorted (sort_key q) key_ltb l).
Proof.
  apply sorted_ascending.
  - apply key_ltb_trans.
  - apply key_ltb_asym.
  - apply key_ltb_total.
Qed.





Lemma demo_index_served :
  index_served demo_host demo_client "svelte" demo_index.
Proof. eexists. split_and!; reflexivity. Defined.


Lemma filter_all {A} (P : A → Prop) `{!∀ x, Decision (P x)} (l : list A) :
  (∀ x, x ∈ l → P x) → filter P l = l.
Proof.
  induction l as [|x l IH]; intros Hall; [done|].
  rewrite filter_cons_True by (apply Hall; left).
  f_equal. apply IH. intros y Hy. apply Hall. by right.
Qed.

(** C5.  The empty query.  [lower("")] is the empty string, which occurs
    in every name: the filter keeps every entry of the index, and the
    search returns, without raising, the first 20 entries of the ranking
    of the whole index, which is empty only when the index is. *)
Theorem search_empty_query up c slug ix :
  index_served up c slug ix →
  (∀ e, is_match (Str.lower "") e) ∧
  filter (is_match (Str.lower "")) (entries_of ix) = entries_of ix ∧
  ∃ out,
    (search_doc_entries up slug "" c).1 = Ok out ∧
    out = take 20 (sorted (sort_key "") key_ltb (entries_of ix)) ∧
    length out = length (entries_of ix) `min` 20 ∧
    (∀ e, e ∈ out → e ∈ entries_of ix).
Proof.
  intros Hix.
  assert (∀ e, is_match (Str.lower "") e) as Hall.
  { intros e. unfold is_match. apply contains_empty. }
  assert (filter (is_match (Str.lower "")) (entries_of ix) = entries_of ix)
    as Hfilter by (apply filter_all; auto).
  split_and!; [done..|].
  eexists. split; [by apply search_doc_entries_served|].
  rewrite Hfilter. split_and!.
  - done.
  - rewrite length_take, sorted_length. lia.
  - intros e He. apply (sublist_subseteq _ _ (sublist_take _ 20)) in He.
    by apply sorted_elem_of in He.
Qed.

Lemma search_empty_query_witness :
  (∀ e, is_match (Str.lower "") e) ∧
  filter (is_match (Str.lower "")) (entries_of demo_index)
  = entries_of demo_index ∧
  ∃ out,
    (search_doc_entries demo_host "svelte" "" demo_client).1 = Ok out ∧
    out = take 20 (sorted (sort_key "") key_ltb (entries_of demo_index)) ∧
    length out = length (entries_of demo_index) `min` 20 ∧
    (∀ e, e ∈ out → e ∈ entries_of demo_index).
Proof.
  apply (search_empty_query demo_host demo_client "svelte" demo_index).
  exact demo_index_served.
Defined.

Example search_empty_query_demo :
  (search_doc_entries demo_host "svelte" "" demo_client).1
  = Ok [ entry "Preact" "preact" "Guide";
         entry "react" "react-b" "API";
         entry "React" "react-a" "API";
         entry "Reactivity" "reactivity" "Guide";
         entry "reactor" "reactor" "API";
         entry "Stores" "stores" "Guide";
         entry "useReact" "use-react" "API" ].
Proof. vm_compute. reflexivity. Qed.

(** Whatever the host answers, a search that returns has gone through
    the slice [[:20]]. *)
Lemma search_doc_entries_inv up slug query c out :
  (search_doc_entries up slug query c).1 = Ok out →
  ∃ entries,
    out = take 20 (sorted (sort_key (Str.lower query)) key_ltb
                     (filter (is_match (Str.lower query)) entries)).
Proof.
  unfold search_doc_entries, bind, lift, ret.
  destruct (get_doc_index up slug c) as [[index|e] c']; [|done].
  destruct (index_entries index) as [entries|e]; [|done].
  simpl. intros [= <-]. by exists entries.
Qed.

(** C6.  Truncation.  A list returned by the search has at most 20
    entries, whatever the host answered; when the index [ix] has been
    fetched the length is the number of matching entries capped at 20,
    so exactly 20 when more than 20 entries match. *)
Theorem search_at_most_20 up c slug query :
  (∀ out, (search_doc_entries up slug query c).1 = Ok out → length out ≤ 20) ∧
  (∀ ix, index_served up c slug ix →
     ∃ out, (search_doc_entries up slug query c).1 = Ok out ∧
       length out
       = length (filter (is_match (Str.lower query)) (entries_of ix)) `min` 20).
Proof.
  split.
  - intros out (entries & ->)%search_doc_entries_inv.
    rewrite length_take. lia.
  - intros ix Hix. eexists. split; [by apply search_doc_entries_served|].
    rewrite length_take, sorted_length. lia.
Qed.

Example search_truncates :
  length (filter (is_match "bind") (numbered_entries 25)) = 25 ∧
  ∃ out, (search_doc_entries wide_host "svelte" "bind" demo_client).1 = Ok out ∧
         length out = 20.
Proof. split; [by vm_compute|]. eexists. split; by vm_compute. Qed.



(** [react] and [React] share the key [(0, "react")]: the index order
    decides, in both directions. *)
Example search_keeps_index_order :
  (search_doc_entries
     (λ _ _, ok_json (JIndex {| ix_entries := Some
        [entry "React" "react-a" "API"; entry "react" "react-b" "API"] |}))
     "svelte" "react" demo_client).1
  = Ok [entry "React" "react-a" "API"; entry "react" "react-b" "API"] ∧
  (search_doc_entries
     (λ _ _, ok_json (JIndex {| ix_entries := Some
        [entry "react" "react-b" "API"; entry "React" "react-a" "API"] |}))
     "svelte" "react" demo_client).1
  = Ok [entry "react" "react-b" "API"; entry "React" "react-a" "API"].
Proof. split; vm_compute; reflexivity. Qed.

(** ** The catalog and its memo *)

Section CatalogFacts.

Variable up : Upstream.

(** A call with the cache unset makes one request and fills the cache
    exactly when the round trip yields a parsed body. *)
Lemma get_available_docs_miss c :
  docs_cache c = JNull →
  get_available_docs up c
  = (catalog_reply up c,
     {| base_url := base_url c;
        docs_cache := match catalog_reply up c with Ok v => v | Raise _ => JNull end;
        requests := requests c ++ [catalog_url c] |}).
Proof.
  intros Hnone. unfold get_available_docs, catalog_reply, bind. rewrite Hnone.
  unfold http_get, lift, set_docs_cache. cbn.
  destruct (up (length (requests c)) (catalog_url c)) as [r|e]; cbn;
    [|by rewrite Hnone].
  destruct (raise_for_status r) as [[]|e]; cbn; [|by rewrite Hnone].
  destruct (json_body r) as [v|e]; cbn; [done|by rewrite Hnone].
Qed.

(** A call with the cache set returns it and touches nothing. *)
Lemma get_available_docs_hit c :
  docs_cache c ≠ JNull → get_available_docs up c = (Ok (docs_cache c), c).
Proof.
  intros Hset. unfold get_available_docs, bind, ret.
  destruct (docs_cache c) eqn:Hc; [done|..]; by rewrite Hc.
Qed.

Lemma calls_hit n c :
  docs_cache c ≠ JNull → calls up n c = (replicate n (Ok (docs_cache c)), c).
Proof.
  intros Hset. induction n as [|n IH]; simpl; [done|].
  by rewrite get_available_docs_hit, IH.
Qed.

End CatalogFacts.

(** C4.  Memoization of the catalog.  On a client whose cache is unset, a
    call makes one request.  When the round trip yields the parsed
    catalog, the call returns it and stores it, and any number of later
    calls, whatever the host would answer, return the same catalog and
    leave the request log alone: two calls in a row make exactly one
    request.  When the round trip fails (the transport raises, the status
    is not a success, or the body does not parse) the call raises, the
    cache stays unset, and the next call makes a new request.  After the
    call the cache is unset or holds the whole parsed body. *)
Theorem catalog_memoization up c :
  docs_cache c = JNull →
  let url := catalog_url c in
  (∀ docs, catalog_reply up c = Ok (JCatalog docs) →
     ∃ c1, get_available_docs up c = (Ok (JCatalog docs), c1) ∧
       docs_cache c1 = JCatalog docs ∧
       requests c1 = requests c ++ [url] ∧
       (∀ up' n, calls up' n c1 = (replicate n (Ok (JCatalog docs)), c1)) ∧
       requests (calls up 2 c).2 = requests c ++ [url]) ∧
  (∀ e, catalog_reply up c = Raise e →
     ∃ c1, get_available_docs up c = (Raise e, c1) ∧
       docs_cache c1 = JNull ∧
       requests c1 = requests c ++ [url] ∧
       ∀ up', requests (get_available_docs up' c1).2 = requests c ++ [url; url]) ∧
  (docs_cache (get_available_docs up c).2 = JNull ∨
   catalog_reply up c = Ok (docs_cache (get_available_docs up c).2)).
Proof.
  intros Hnone url. split_and!.
  - intros docs Hreply. eexists. rewrite get_available_docs_miss by done.
    rewrite Hreply. split; [done|]. cbn. split_and!; [done..| |].
    + intros up' n. by rewrite calls_hit.
    + rewrite get_available_docs_miss, Hreply by done.
      by rewrite get_available_docs_hit.
  - intros e Hreply. eexists. rewrite get_available_docs_miss by done.
    rewrite Hreply. split; [done|]. cbn. split_and!; [done..|].
    intros up'. rewrite get_available_docs_miss by done. cbn.
    by rewrite <-app_assoc.
  - rewrite get_available_docs_miss by done. cbn.
    destruct (catalog_reply up c); auto.
Qed.

Lemma catalog_memoization_witness :
  let c := demo_client in
  let up := flaky_host in
  let url := catalog_url c in
  (∀ docs, catalog_reply up c = Ok (JCatalog docs) →
     ∃ c1, get_available_docs up c = (Ok (JCatalog docs), c1) ∧
       docs_cache c1 = JCatalog docs ∧
       requests c1 = requests c ++ [url] ∧
       (∀ up' n, calls up' n c1 = (replicate n (Ok (JCatalog docs)), c1)) ∧
       requests (calls up 2 c).2 = requests c ++ [url]) ∧
  (∀ e, catalog_reply up c = Raise e →
     ∃ c1, get_available_docs up c = (Raise e, c1) ∧
       docs_cache c1 = JNull ∧
       requests c1 = requests c ++ [url] ∧
       ∀ up', requests (get_available_docs up' c1).2 = requests c ++ [url; url]) ∧
  (docs_cache (get_available_docs up c).2 = JNull ∨
   catalog_reply up c = Ok (docs_cache (get_available_docs up c).2)).
Proof. apply (catalog_memoization flaky_host demo_client). reflexivity. Defined.

(** Three calls against the flaky host: the first raises and caches
    nothing, the second fetches, the third is served from the cache: two
    requests in all. *)
Example catalog_retry_then_memo :
  calls flaky_host 3 demo_client
  = ([ Raise (mk_exc ConnectError "All connection attempts failed");
       Ok (JCatalog demo_catalog); Ok (JCatalog demo_catalog) ],
     {| base_url := "http://localhost:9292";
        docs_cache := JCatalog demo_catalog;
        requests := [ "http://localhost:9292/docs.json";
                      "http://localhost:9292/docs.json" ] |}).
Proof. reflexivity. Qed.

(** ** Extraction on concrete inputs *)

Example basic_text_script_style : basic_text script_style_soup = "Hello".
Proof. reflexivity. Qed.

Example extract_text_bare :
  extract_text_content bare_tools script_style_fragment = Ok "Hello".
Proof. reflexivity. Qed.

Example extract_page_info_headings :
  extract_page_info bare_tools headings_fragment
  = Ok {| pi_title := Some "Intro";
          pi_sections := [ {| h_text := "A"; h_level := 2; h_id := "" |};
                           {| h_text := "A.1"; h_level := 3; h_id := "" |};
                           {| h_text := "B"; h_level := 2; h_id := "" |} ] |}.
Proof. reflexivity. Qed.

(** ** The strategies of the text extraction *)

Lemma attempt_ok body handled :
  (∀ e, body = Raise e → caught_by_any handled e = true) →
  ∃ r, attempt body handled = Ok r.
Proof.
  intros H. destruct body as [r|e]; simpl; [by eexists|].
  rewrite (H e eq_refl). by eexists.
Qed.

Lemma extract_text_fallback tc html :
  cleaner_silent tc html → pandoc_silent tc html →
  extract_text_content tc html
  = obind (html_parser tc html) (λ parsed, Ok (basic_text parsed)).
Proof.
  unfold cleaner_silent, pandoc_silent, extract_text_content, usable.
  unfold cleaner_handled, pandoc_handled.
  intros Hc Hp.
  destruct (docs_cleaner tc html) as [markdown|e1]; cbn -[caught_by_any].
  - rewrite Hc. cbn -[caught_by_any].
    destruct (pandoc tc html) as [stdout|e2]; cbn -[caught_by_any].
    + by rewrite Hp.
    + by rewrite Hp.
  - rewrite Hc. cbn -[caught_by_any].
    destruct (pandoc tc html) as [stdout|e2]; cbn -[caught_by_any].
    + by rewrite Hp.
    + by rewrite Hp.
Qed.

(** C3, as the code has it.  The call returns a string whenever every
    failure of the cleaner is an [ImportError], every failure of the
    subprocess is a [CalledProcessError], a [FileNotFoundError] or a
    [TimeoutExpired], and the parser accepts the fragment: then the
    result is the cleaner's usable text, else the subprocess's non-empty
    output, else the text of the naive strategy.  An exception of any
    other class raised by the cleaner, or by the subprocess once the
    cleaner has given nothing, escapes the call unchanged. *)
Theorem extract_text_degrades tc html parsed :
  html_parser tc html = Ok parsed →
  (fails_only_with cleaner_handled (docs_cleaner tc html) →
   fails_only_with pandoc_handled (pandoc tc html) →
   ∃ s, extract_text_content tc html = Ok s ∧
     (docs_cleaner tc html = Ok s ∧ usable s = true ∨
      cleaner_silent tc html ∧ pandoc tc html = Ok s ∧ s ≠ "" ∨
      cleaner_silent tc html ∧ pandoc_silent tc html ∧ s = basic_text parsed)) ∧
  (∀ e, docs_cleaner tc html = Raise e →
     caught_by_any cleaner_handled e = false →
     extract_text_content tc html = Raise e) ∧
  (∀ e, cleaner_silent tc html → pandoc tc html = Raise e →
     caught_by_any pandoc_handled e = false →
     extract_text_content tc html = Raise e).
Proof.
  intros Hparse. split_and!.
  - intros Hc Hp.
    destruct (docs_cleaner tc html) as [markdown|e1] eqn:Hcl.
    + destruct (usable markdown) eqn:Hus.
      * exists markdown. split; [|by left].
        unfold extract_text_content. rewrite Hcl. cbn -[caught_by_any].
        fold (usable markdown). by rewrite Hus.
      * assert (cleaner_silent tc html) as Hsil.
        { unfold cleaner_silent. by rewrite Hcl. }
        destruct (pandoc tc html) as [stdout|e2] eqn:Hpd.
        -- destruct (decide (stdout = "")) as [->|Hne].
           ++ assert (pandoc_silent tc html) as Hps.
              { unfold pandoc_silent. by rewrite Hpd. }
              exists (basic_text parsed).
              rewrite extract_text_fallback, Hparse by done. eauto 10.
           ++ exists stdout. split; [|by right; left].
              unfold extract_text_content. rewrite Hcl. cbn -[caught_by_any].
              fold (usable markdown). rewrite Hus, Hpd. cbn -[caught_by_any].
              by destruct stdout.
        -- assert (pandoc_silent tc html) as Hps.
           { unfold pandoc_silent. rewrite Hpd. by apply Hp. }
           exists (basic_text parsed).
           rewrite extract_text_fallback, Hparse by done. eauto 10.
    + assert (cleaner_silent tc html) as Hsil.
      { unfold cleaner_silent. rewrite Hcl. by apply Hc. }
      destruct (pandoc tc html) as [stdout|e2] eqn:Hpd.
      * destruct (decide (stdout = "")) as [->|Hne].
        -- assert (pandoc_silent tc html) as Hps.
           { unfold pandoc_silent. by rewrite Hpd. }
           exists (basic_text parsed).
           rewrite extract_text_fallback, Hparse by done. eauto 10.
        -- exists stdout. split; [|by right; left].
           unfold extract_text_content. rewrite Hcl. cbn -[caught_by_any].
           unfold cleaner_silent in Hsil. rewrite Hcl in Hsil.
           unfold cleaner_handled in Hsil. rewrite Hsil, Hpd.
           cbn -[caught_by_any]. by destruct stdout.
      * assert (pandoc_silent tc html) as Hps.
        { unfold pandoc_silent. rewrite Hpd. by apply Hp. }
        exists (basic_text parsed).
        rewrite extract_text_fallback, Hparse by done. eauto 10.
  - intros e Hcl Hnot. unfold extract_text_content. rewrite Hcl.
    cbn -[caught_by_any]. unfold cleaner_handled in Hnot. by rewrite Hnot.
  - intros e Hsil Hpd Hnot. unfold extract_text_content.
    unfold cleaner_silent, usable, cleaner_handled in Hsil.
    unfold pandoc_handled in Hnot.
    destruct (docs_cleaner tc html) as [markdown|e1]; cbn -[caught_by_any];
      rewrite Hsil, Hpd; cbn -[caught_by_any]; by rewrite Hnot.
Qed.

Lemma extract_text_degrades_witness :
  (fails_only_with cleaner_handled (docs_cleaner bare_tools script_style_fragment) →
   fails_only_with pandoc_handled (pandoc bare_tools script_style_fragment) →
   ∃ s, extract_text_content bare_tools script_style_fragment = Ok s ∧
     (docs_cleaner bare_tools script_style_fragment = Ok s ∧ usable s = true ∨
      cleaner_silent bare_tools script_style_fragment ∧
        pandoc bare_tools script_style_fragment = Ok s ∧ s ≠ "" ∨
      cleaner_silent bare_tools script_style_fragment ∧
        pandoc_silent bare_tools script_style_fragment ∧
        s = basic_text script_style_soup)) ∧
  (∀ e, docs_cleaner bare_tools script_style_fragment = Raise e →
     caught_by_any cleaner_handled e = false →
     extract_text_content bare_tools script_style_fragment = Raise e) ∧
  (∀ e, cleaner_silent bare_tools script_style_fragment →
     pandoc bare_tools script_style_fragment = Raise e →
     caught_by_any pandoc_handled e = false →
     extract_text_content bare_tools script_style_fragment = Raise e).
Proof.
  apply (extract_text_degrades bare_tools script_style_fragment script_style_soup).
  reflexivity.
Defined.

(** Against C3 as stated: with no cleaner module and a pandoc binary
    that may not be executed, [subprocess.run] raises [PermissionError],
    which the [except] clause does not name, and the call raises. *)
Lemma extract_text_raises :
  extract_text_content locked_tools script_style_fragment
  = Raise (mk_exc PermissionError "[Errno 13] Permission denied: 'pandoc'").
Proof. reflexivity. Qed.

(** ** Trees *)

(** Induction on a tree with the hypothesis for every child. *)
Lemma node_induction (P : node → Prop) :
  (∀ s, P (NText s)) → (∀ s, P (NOther s)) →
  (∀ name attrs children, Forall P children → P (NElem name attrs children)) →
  ∀ n, P n.
Proof.
  intros Ht Ho He. fix IH 1. intros [s|s|name attrs children].
  - apply Ht.
  - apply Ho.
  - apply He. induction children as [|c children IHc]; constructor.
    + apply IH.
    + apply IHc.
Qed.

Lemma strings_elem name attrs children :
  strings (NElem name attrs children) = flat_map strings children.
Proof. simpl. induction children as [|c l IH]; simpl; [done|]. by rewrite IH. Qed.

Lemma visible_in_elem names name attrs children :
  visible_in names (NElem name attrs children)
  = if mem name names then [] else flat_map (visible_in names) children.
Proof.
  simpl. destruct (mem name names); [done|].
  induction children as [|c l IH]; simpl; [done|]. by rewrite IH.
Qed.

Lemma decompose_in_elem names name attrs children :
  decompose_in names (NElem name attrs children)
  = if mem name names then []
    else [NElem name attrs (flat_map (decompose_in names) children)].
Proof.
  simpl. by destruct (mem name names).
Qed.

Lemma rewrite_in_elem names f name attrs children :
  rewrite_in names f (NElem name attrs children)
  = if mem name names then NElem name attrs (f children)
    else NElem name attrs (rewrite_in names f <$> children).
Proof.
  simpl. by destruct (mem name names).
Qed.

Lemma flat_map_app {A B} (f : A → list B) l1 l2 :
  flat_map f (l1 ++ l2) = flat_map f l1 ++ flat_map f l2.
Proof. induction l1 as [|x l1 IH]; simpl; [done|]. by rewrite IH, app_assoc. Qed.

Lemma flat_map_ext_Forall {A B} (f g : A → list B) l :
  Forall (λ x, f x = g x) l → flat_map f l = flat_map g l.
Proof. induction 1 as [|x l Hx _ IH]; simpl; [done|]. by rewrite Hx, IH. Qed.

(** Collecting the strings after the removal is collecting the strings
    outside the removed tags. *)
Lemma strings_decompose_in names n :
  flat_map strings (decompose_in names n) = visible_in names n.
Proof.
  induction n as [s|s|name attrs children IH] using node_induction;
    [done..|].
  rewrite decompose_in_elem, visible_in_elem.
  destruct (mem name names); [done|]. cbn [flat_map]. rewrite app_nil_r.
  rewrite strings_elem.
  induction IH as [|c l Hc _ IHl]; simpl; [done|].
  by rewrite flat_map_app, Hc, IHl.
Qed.

Lemma strings_decompose_all names l :
  strings_of (decompose_all names l) = visible names l.
Proof.
  unfold strings_of, decompose_all, visible.
  induction l as [|n l IH]; simpl; [done|].
  by rewrite flat_map_app, strings_decompose_in, IH.
Qed.

(** What a removed tag contains has no part in what is visible. *)
Lemma visible_rewrite_in names f n :
  visible_in names (rewrite_in names f n) = visible_in names n.
Proof.
  induction n as [s|s|name attrs children IH] using node_induction;
    [done..|].
  rewrite rewrite_in_elem, visible_in_elem.
  destruct (mem name names) eqn:Hm; rewrite visible_in_elem, Hm; [done|].
  induction IH as [|c l Hc _ IHl]; [done|].
  rewrite fmap_cons. cbn [flat_map]. by rewrite Hc, IHl.
Qed.

Lemma visible_rewrite_tags names f l :
  visible names (rewrite_tags names f l) = visible names l.
Proof.
  unfold visible, rewrite_tags.
  induction l as [|n l IH]; [done|].
  rewrite fmap_cons. cbn [flat_map]. by rewrite visible_rewrite_in, IH.
Qed.

Lemma basic_text_visible parsed :
  basic_text parsed
  = Str.join " " (chunks_of (Str.concat (visible ["script"; "style"] parsed))).
Proof.
  unfold basic_text, chunks_of, get_text. by rewrite strings_decompose_all.
Qed.

(** ** White space in the text of the naive strategy *)

Local Abbreviation nobreak := (λ c : ascii, negb (Str.is_linebreak c)).

(** Induction on a string two characters at a time, as [splitlines] and
    [split2] recurse. *)
Lemma string_pair_induction (P : string → Prop) :
  P "" → (∀ c, P (String c "")) →
  (∀ c1 c2 s, P s → P (String c2 s) → P (String c1 (String c2 s))) →
  ∀ s, P s.
Proof.
  intros H0 H1 H2 s.
  assert (P s ∧ ∀ c, P (String c s)) as [? _]; [|done].
  induction s as [|c s [IHs IHc]]; [by split|].
  split; [apply IHc|]. intros c'. apply H2; [done|apply IHc].
Qed.

Lemma append_cons c a b : String c a +:+ b = String c (a +:+ b).
Proof. reflexivity. Qed.

Lemma append_empty_l b : "" +:+ b = b.
Proof. reflexivity. Qed.

Lemma all_chars_app P a b :
  all_chars P (a +:+ b) = all_chars P a && all_chars P b.
Proof.
  induction a as [|c a IH]; [done|].
  rewrite append_cons. cbn [all_chars]. by rewrite IH, andb_assoc.
Qed.

Lemma first_char_app a b : a ≠ "" → first_char (a +:+ b) = first_char a.
Proof. by destruct a. Qed.

Lemma last_char_app a b : b ≠ "" → last_char (a +:+ b) = last_char b.
Proof.
  intros Hb. induction a as [|c a IH]; [done|].
  rewrite append_cons. cbn [last_char]. rewrite IH.
  destruct (a +:+ b) eqn:Hab; [|done].
  destruct a; [by rewrite append_empty_l in Hab|done].
Qed.

Lemma no_double_space_app a b :
  no_double_space a = true → no_double_space b = true →
  from_option is_blank false (last_char a)
    && from_option is_blank false (first_char b) = false →
  no_double_space (a +:+ b) = true.
Proof.
  intros Ha Hb Hab. induction a as [|c a IH]; [done|].
  rewrite append_cons. cbn [no_double_space] in *.
  apply andb_true_iff in Ha as [Hc Ha].
  destruct a as [|c' a].
  - rewrite append_empty_l. rewrite Hb, andb_true_r.
    cbn in Hab. by rewrite Hab.
  - rewrite IH; [|done|done]. rewrite andb_true_r.
    by rewrite append_cons in *.
Qed.

Lemma all_chars_lstrip P s :
  all_chars P s = true → all_chars P (Str.lstrip s) = true.
Proof.
  induction s as [|c s IH]; [done|]. cbn [Str.lstrip all_chars].
  intros [Hc Hs]%andb_true_iff. destruct (Str.is_space c); [auto|].
  cbn [all_chars]. by rewrite Hc, Hs.
Qed.

Lemma all_chars_rstrip P s :
  all_chars P s = true → all_chars P (Str.rstrip s) = true.
Proof.
  induction s as [|c s IH]; [done|]. cbn [Str.rstrip all_chars].
  intros [Hc Hs]%andb_true_iff.
  destruct (Str.is_space c && Str.is_empty (Str.rstrip s)); [done|].
  cbn [all_chars]. by rewrite Hc, IH.
Qed.

Lemma first_char_rstrip s :
  Str.rstrip s = "" ∨ first_char (Str.rstrip s) = first_char s.
Proof.
  destruct s as [|c s]; [by left|]. cbn [Str.rstrip].
  destruct (Str.is_space c && Str.is_empty (Str.rstrip s)); [by left|by right].
Qed.

Lemma no_double_space_lstrip s :
  no_double_space s = true → no_double_space (Str.lstrip s) = true.
Proof.
  induction s as [|c s IH]; [done|]. cbn [Str.lstrip].
  destruct (Str.is_space c); [|done].
  cbn [no_double_space]. intros [_ Hs]%andb_true_iff. auto.
Qed.

Lemma no_double_space_rstrip s :
  no_double_space s = true → no_double_space (Str.rstrip s) = true.
Proof.
  induction s as [|c s IH]; [done|]. cbn [Str.rstrip no_double_space].
  intros [Hc Hs]%andb_true_iff.
  destruct (Str.is_space c && Str.is_empty (Str.rstrip s)); [done|].
  cbn [no_double_space]. rewrite IH by done. rewrite andb_true_r.
  destruct (first_char_rstrip s) as [->| ->]; [|done].
  cbn. by rewrite andb_false_r.
Qed.

Lemma first_char_lstrip s : not_space_at (first_char (Str.lstrip s)).
Proof.
  induction s as [|c s IH]; [done|]. cbn [Str.lstrip].
  destruct (Str.is_space c) eqn:Hc; [done|]. by intros c' [= <-].
Qed.

Lemma last_char_rstrip s : not_space_at (last_char (Str.rstrip s)).
Proof.
  induction s as [|c s IH]; [done|]. cbn [Str.rstrip].
  destruct (Str.is_space c && Str.is_empty (Str.rstrip s)) eqn:Hc; [done|].
  destruct (Str.rstrip s) as [|c' r] eqn:Hr.
  - cbn in *. rewrite andb_true_r in Hc. by intros c' [= <-].
  - exact IH.
Qed.

Lemma collapsed_strip s :
  all_chars nobreak s = true → no_double_space s = true →
  collapsed (Str.strip s).
Proof.
  intros Hb Hd. unfold Str.strip. split_and!.
  - by apply all_chars_rstrip, all_chars_lstrip.
  - by apply no_double_space_rstrip, no_double_space_lstrip.
  - destruct (first_char_rstrip (Str.lstrip s)) as [->| ->]; [done|].
    apply first_char_lstrip.
  - apply last_char_rstrip.
Qed.

Lemma Forall_cons_head (P : ascii → bool) c l :
  P c = true → Forall (λ s, all_chars P s = true) l →
  Forall (λ s, all_chars P s = true) (Str.cons_head c l).
Proof.
  intros Hc [|x xs Hx Hxs]; constructor; cbn [all_chars];
    rewrite ?Hc, ?Hx; done.
Qed.

Lemma splitlines_no_break s :
  Forall (λ l, all_chars nobreak l = true) (Str.splitlines s).
Proof.
  induction s as [|c|c1 c2 s IH1 IH2] using string_pair_induction.
  - constructor.
  - cbn [Str.splitlines]. destruct (Str.is_linebreak c) eqn:Hc.
    + by repeat constructor.
    + repeat constructor. cbn. by rewrite Hc.
  - change (Str.splitlines (String c1 (String c2 s))) with
      (if Str.is_linebreak c1 then
         if bool_decide (c1 = "013"%char) && bool_decide (c2 = "010"%char)
         then "" :: Str.splitlines s
         else "" :: Str.splitlines (String c2 s)
       else Str.cons_head c1 (Str.splitlines (String c2 s))).
    destruct (Str.is_linebreak c1) eqn:Hc.
    + destruct (_ && _); by constructor.
    + apply (Forall_cons_head nobreak); [by rewrite Hc|done].
Qed.

Lemma split2_all_chars P s :
  all_chars P s = true → Forall (λ p, all_chars P p = true) (Str.split2 s).
Proof.
  induction s as [|c|c1 c2 s IH1 IH2] using string_pair_induction.
  - by repeat constructor.
  - intros Hs. by repeat constructor.
  - intros Hs.
    change (Str.split2 (String c1 (String c2 s))) with
      (if bool_decide (c1 = " "%char) && bool_decide (c2 = " "%char)
       then "" :: Str.split2 s
       else Str.cons_head c1 (Str.split2 (String c2 s))).
    cbn [all_chars] in Hs.
    apply andb_true_iff in Hs as [H1 [H2 Hs]%andb_true_iff].
    destruct (_ && _).
    + constructor; [done|auto].
    + apply Forall_cons_head; [done|]. apply IH2. cbn. by rewrite H2, Hs.
Qed.

Lemma split2_head s :
  ∃ p ps, Str.split2 s = p :: ps ∧ (p = "" ∨ first_char p = first_char s).
Proof.
  destruct s as [|c1 [|c2 s]].
  - exists "", []. auto.
  - exists (String c1 ""), []. auto.
  - change (Str.split2 (String c1 (String c2 s))) with
      (if bool_decide (c1 = " "%char) && bool_decide (c2 = " "%char)
       then "" :: Str.split2 s
       else Str.cons_head c1 (Str.split2 (String c2 s))).
    destruct (_ && _); [by eexists _, _; eauto|].
    destruct (Str.split2 (String c2 s)) as [|p ps]; cbn;
      eexists _, _; eauto.
Qed.

Lemma split2_no_double_space s :
  Forall (λ p, no_double_space p = true) (Str.split2 s).
Proof.
  induction s as [|c|c1 c2 s IH1 IH2] using string_pair_induction.
  - by repeat constructor.
  - repeat constructor. cbn. by rewrite andb_false_r.
  - change (Str.split2 (String c1 (String c2 s))) with
      (if bool_decide (c1 = " "%char) && bool_decide (c2 = " "%char)
       then "" :: Str.split2 s
       else Str.cons_head c1 (Str.split2 (String c2 s))).
    destruct (bool_decide (c1 = " "%char) && bool_decide (c2 = " "%char))
      eqn:Hcc; [by constructor|].
    destruct (split2_head (String c2 s)) as (p & ps & Hsplit & Hp).
    rewrite Hsplit in IH2 |- *. apply Forall_cons in IH2 as [Hp' Hps].
    cbn [Str.cons_head]. constructor; [|done].
    cbn [no_double_space]. rewrite Hp', andb_true_r.
    destruct Hp as [->| ->]; cbn; [by rewrite andb_false_r|].
    unfold is_blank. by rewrite Hcc.
Qed.

Lemma chunks_collapsed text :
  Forall (λ chunk, chunk ≠ "" ∧ collapsed chunk) (chunks_of text).
Proof.
  unfold chunks_of. apply Forall_forall. intros chunk Hin.
  apply list_elem_of_filter in Hin as [Hne Hin]. split; [done|].
  apply list_elem_of_fmap in Hin as (piece & -> & Hin).
  apply list_elem_of_In, in_flat_map in Hin as (line' & Hline' & Hin).
  apply list_elem_of_In, list_elem_of_fmap in Hline' as (line & -> & Hline).
  apply list_elem_of_In in Hin.
  pose proof (splitlines_no_break text) as Hb.
  rewrite Forall_forall in Hb. specialize (Hb _ Hline).
  assert (all_chars nobreak (Str.strip line) = true) as Hb'
    by (by apply all_chars_rstrip, all_chars_lstrip).
  pose proof (split2_all_chars nobreak _ Hb') as Hbp.
  pose proof (split2_no_double_space (Str.strip line)) as Hdp.
  rewrite Forall_forall in Hbp, Hdp.
  apply collapsed_strip; auto.
Qed.

Lemma blank_is_space c : is_blank c = true → Str.is_space c = true.
Proof. unfold is_blank. by intros ->%bool_decide_eq_true. Qed.

Lemma not_space_not_blank o :
  not_space_at o → from_option is_blank false o = false.
Proof.
  intros H. destruct o as [c|]; [|done]. cbn.
  destruct (is_blank c) eqn:Hc; [|done].
  apply blank_is_space in Hc. by rewrite (H c eq_refl) in Hc.
Qed.

Lemma join_collapsed l :
  Forall (λ chunk, chunk ≠ "" ∧ collapsed chunk) l →
  collapsed (Str.join " " l) ∧ (l ≠ [] → Str.join " " l ≠ "").
Proof.
  induction 1 as [|x l [Hne Hx] Hl [IH IHne]].
  - split; [|done]. by split_and!.
  - destruct l as [|y l]; [by split|].
    change (Str.join " " (x :: y :: l))
      with (x +:+ String " " (Str.join " " (y :: l))).
    set (rest := Str.join " " (y :: l)) in *.
    assert (rest ≠ "") as Hrest by (by apply IHne).
    destruct Hx as (Hxb & Hxd & Hxf & Hxl).
    destruct IH as (Hrb & Hrd & Hrf & Hrl).
    split; [|by destruct x].
    split_and!.
    + rewrite all_chars_app. cbn [all_chars]. by rewrite Hxb, Hrb.
    + apply no_double_space_app; [done| |].
      * cbn [no_double_space]. rewrite Hrd, andb_true_r.
        by rewrite (not_space_not_blank _ Hrf), andb_false_r.
      * by rewrite (not_space_not_blank _ Hxl).
    + by rewrite first_char_app.
    + rewrite last_char_app by done. by destruct rest.
Qed.

(** The text of the naive strategy has its white space collapsed. *)
Lemma basic_text_collapsed parsed : collapsed (basic_text parsed).
Proof.
  rewrite basic_text_visible. apply join_collapsed, chunks_collapsed.
Qed.

(** C7, as the code has it.  The naive fallback.  When the first two
    strategies give nothing the call returns the text of the naive
    strategy.  That text is made of the strings outside the script and
    style tags only: it is the pieces of their concatenation joined by
    single spaces, and it stays the same when the content of the script
    and style tags is replaced by anything.  The pieces are cut at line
    boundaries and at runs of two spaces, and stripped: every piece is
    non-empty, and the pieces and the result have no line boundary, no
    two spaces in a row and no white space at either end.  Other white
    space inside a line is not touched.  On the fragment of the
    specification the result is [Hello]: it contains neither [x()] nor
    [y{}]. *)
Theorem naive_fallback_text tc html parsed :
  html_parser tc html = Ok parsed →
  cleaner_silent tc html → pandoc_silent tc html →
  let names := ["script"; "style"] in
  let kept := chunks_of (Str.concat (visible names parsed)) in
  extract_text_content tc html = Ok (basic_text parsed) ∧
  basic_text parsed = Str.join " " kept ∧
  (∀ f, basic_text (rewrite_tags names f parsed) = basic_text parsed) ∧
  Forall (λ chunk, chunk ≠ "" ∧ collapsed chunk) kept ∧
  collapsed (basic_text parsed) ∧
  (parsed = script_style_soup →
     basic_text parsed = "Hello" ∧
     Str.contains "x()" (basic_text parsed) = false ∧
     Str.contains "y{}" (basic_text parsed) = false ∧
     Str.contains "Hello" (basic_text parsed) = true).
Proof.
  intros Hparse Hc Hp names kept. split_and!.
  - by rewrite extract_text_fallback, Hparse.
  - apply basic_text_visible.
  - intros f. by rewrite !basic_text_visible, visible_rewrite_tags.
  - apply chunks_collapsed.
  - apply basic_text_collapsed.
  - by intros ->.
Qed.

Lemma naive_fallback_text_witness :
  let tc := bare_tools in
  let html := script_style_fragment in
  let parsed := script_style_soup in
  let names := ["script"; "style"] in
  let kept := chunks_of (Str.concat (visible names parsed)) in
  extract_text_content tc html = Ok (basic_text parsed) ∧
  basic_text parsed = Str.join " " kept ∧
  (∀ f, basic_text (rewrite_tags names f parsed) = basic_text parsed) ∧
  Forall (λ chunk, chunk ≠ "" ∧ collapsed chunk) kept ∧
  collapsed (basic_text parsed) ∧
  (parsed = script_style_soup →
     basic_text parsed = "Hello" ∧
     Str.contains "x()" (basic_text parsed) = false ∧
     Str.contains "y{}" (basic_text parsed) = false ∧
     Str.contains "Hello" (basic_text parsed) = true).
Proof.
  apply (naive_fallback_text bare_tools script_style_fragment script_style_soup);
    reflexivity.
Defined.

(** Against C7 as stated: white space between two retained fragments
    that is neither a line boundary nor a run of two spaces is not
    collapsed.  A space, a tab and a space between [a] and [b] stay as
    they are, and so do two no-break spaces. *)
Lemma naive_fallback_keeps_tab :
  basic_text
    [ elem "p" [NText "a"]; NText (" " +:+ String "009" " ");
      elem "p" [NText "b"] ]
  = "a " +:+ String "009" " b" ∧
  basic_text
    [ elem "p" [NText "a"]; NText (String "160" (String "160" ""));
      elem "p" [NText "b"] ]
  = "a" +:+ String "160" (String "160" "b").
Proof. split; reflexivity. Qed.

(** Line boundaries and runs of spaces between pieces of text become one
    space each; a tab inside a line is no boundary and stays. *)
Example basic_text_whitespace :
  basic_text
    [ elem "script" [NText "x()"];
      elem "p" [NText (" Hello   big" +:+ String "010" (String "010" "  world "))];
      elem "p" [NText ("a" +:+ String "009" "b")] ]
  = "Hello big world a" +:+ String "009" "b".
Proof. reflexivity. Qed.

(** ** The outline of a page *)

Lemma tags_in_elem name attrs children :
  tags_in (NElem name attrs children)
  = NElem name attrs children :: flat_map tags_in children.
Proof. reflexivity. Qed.

Lemma find_all_in_elem names name attrs children :
  find_all_in names (NElem name attrs children)
  = (if mem name names then [NElem name attrs children] else [])
    ++ flat_map (find_all_in names) children.
Proof. reflexivity. Qed.

Lemma filter_flat_map {A B} (P : B → Prop) `{!∀ x, Decision (P x)}
    (f g : A → list B) l :
  Forall (λ x, g x = filter P (f x)) l →
  flat_map g l = filter P (flat_map f l).
Proof.
  induction 1 as [|x l Hx _ IH]; simpl; [done|].
  by rewrite filter_app, Hx, IH.
Qed.

(** [find_all] keeps, in document order, the tags with one of the names. *)
Lemma find_all_in_tags names n :
  find_all_in names n = filter (λ t, tag_name t ∈ names) (tags_in n).
Proof.
  induction n as [s|s|name attrs children IH] using node_induction;
    [done..|].
  rewrite find_all_in_elem, tags_in_elem, filter_cons. cbn [tag_name].
  unfold mem.
  rewrite (filter_flat_map (λ t, tag_name t ∈ names) tags_in
             (find_all_in names)) by done.
  by destruct (decide (name ∈ names)) as [Hin|Hin];
    [rewrite bool_decide_eq_true_2|rewrite bool_decide_eq_false_2].
Qed.

Lemma find_all_tags names l :
  find_all names l = filter (λ t, tag_name t ∈ names) (tags l).
Proof.
  unfold find_all, tags.
  apply (filter_flat_map (λ t, tag_name t ∈ names)).
  apply Forall_forall. intros n _. apply find_all_in_tags.
Qed.

(** For a tag [find_all] hands to the loop, [int(name[1])] is the level
    of the heading, between 2 and 6. *)
Lemma heading_level_found name :
  name ∈ heading_names →
  ∃ level, heading_level name = Ok level ∧
           level_of_name name = Some level ∧ (2 ≤ level ≤ 6)%Z.
Proof.
  unfold heading_names. intros Hin.
  rewrite !elem_of_cons, elem_of_nil in Hin.
  destruct Hin as [->|[->|[->|[->|[->|[]]]]]];
    (eexists; split; [reflexivity|split; [reflexivity|by vm_compute]]).
Qed.

(** Any other tag stands for no section. *)
Lemma section_of_other n : tag_name n ∉ heading_names → section_of n = None.
Proof.
  unfold section_of, level_of_name, heading_names. intros Hnot.
  repeat case_bool_decide; try done; try lia; exfalso; apply Hnot;
    match goal with H : tag_name n = _ |- _ => rewrite H end;
    repeat constructor.
Qed.

Lemma collect_sections_outline sections headings :
  Forall (λ t, tag_name t ∈ heading_names) headings →
  collect_sections sections headings
  = Ok (sections ++ omap section_of headings).
Proof.
  intros Hall. revert sections.
  induction Hall as [|t headings Ht _ IH]; intros sections; simpl.
  - by rewrite app_nil_r.
  - destruct (heading_level_found _ Ht) as (level & Hlevel & Hname & Hrange).
    unfold section_of at 1. rewrite Hname. fold (trimmed_text t).
    rewrite bool_decide_eq_true_2 by done. cbn [andb].
    destruct (negb (Str.is_empty (trimmed_text t))).
    + rewrite Hlevel. cbn [obind]. rewrite IH. by rewrite <-app_assoc.
    + apply IH.
Qed.

Lemma omap_filter_heading (l : list node) :
  omap section_of (filter (λ t, tag_name t ∈ heading_names) l)
  = omap section_of l.
Proof.
  induction l as [|t l IH]; [done|]. rewrite filter_cons.
  destruct (decide (tag_name t ∈ heading_names)) as [Hin|Hnot]; csimpl.
  - by rewrite IH.
  - by rewrite IH, section_of_other.
Qed.

Lemma sections_outline parsed :
  collect_sections [] (find_all heading_names parsed) = Ok (outline parsed).
Proof.
  rewrite find_all_tags, collect_sections_outline.
  - by rewrite omap_filter_heading.
  - apply Forall_forall. by intros t [? _]%list_elem_of_filter.
Qed.

(** *** Empty trimmed text *)

Lemma lstrip_all_space s :
  all_chars Str.is_space (Str.lstrip s) = all_chars Str.is_space s.
Proof.
  induction s as [|c s IH]; [done|]. cbn [Str.lstrip all_chars].
  destruct (Str.is_space c) eqn:Hc; [done|]. cbn [all_chars]. by rewrite Hc.
Qed.

Lemma rstrip_empty_iff s :
  Str.rstrip s = "" ↔ all_chars Str.is_space s = true.
Proof.
  induction s as [|c s IH]; [done|]. cbn [Str.rstrip all_chars].
  destruct (Str.is_space c); cbn [andb].
  - destruct (Str.rstrip s) eqn:Hr; cbn [Str.is_empty].
    + split; [intros _; by apply IH|done].
    + split; [done|]. intros Hs. by apply IH in Hs.
  - split; done.
Qed.

Lemma strip_empty_iff s : Str.strip s = "" ↔ all_chars Str.is_space s = true.
Proof. unfold Str.strip. by rewrite rstrip_empty_iff, lstrip_all_space. Qed.

Lemma all_chars_concat P l :
  all_chars P (Str.concat l) = true ↔ Forall (λ s, all_chars P s = true) l.
Proof.
  induction l as [|x l IH]; cbn [Str.concat].
  - split; [constructor|done].
  - rewrite all_chars_app, andb_true_iff, IH, Forall_cons. done.
Qed.

Lemma append_empty_iff a b : a +:+ b = "" ↔ a = "" ∧ b = "".
Proof. destruct a; [by rewrite append_empty_l; naive_solver|naive_solver]. Qed.

Lemma concat_empty_iff l : Str.concat l = "" ↔ Forall (λ s, s = "") l.
Proof.
  induction l as [|x l IH]; cbn [Str.concat].
  - split; [constructor|done].
  - by rewrite append_empty_iff, IH, Forall_cons.
Qed.

(** The text joined from the stripped strings is empty exactly when the
    whole text is empty after stripping. *)
Lemma get_text_strip_empty_iff l :
  get_text_strip l = "" ↔ Str.strip (get_text l) = "".
Proof.
  unfold get_text_strip, get_text.
  rewrite strip_empty_iff, all_chars_concat, concat_empty_iff.
  induction (strings_of l) as [|s ss IH]; [done|].
  rewrite fmap_cons, filter_cons, Forall_cons, <-IH, <-strip_empty_iff.
  destruct (decide (Str.strip s ≠ "")) as [Hne|He].
  - rewrite Forall_cons. naive_solver.
  - apply dec_stable in He. naive_solver.
Qed.

Lemma is_empty_true s : Str.is_empty s = true ↔ s = "".
Proof. by destruct s. Qed.

Lemma is_empty_false s : Str.is_empty s = false ↔ s ≠ "".
Proof. by destruct s. Qed.

(** A tag stands for a section exactly when it is one of [h2] to [h6]
    and its text is not empty once trimmed. *)
Lemma section_of_is_Some t :
  is_Some (section_of t) ↔
  tag_name t ∈ heading_names ∧ Str.strip (get_text (contents t)) ≠ "".
Proof.
  rewrite <-get_text_strip_empty_iff. fold (trimmed_text t). split.
  - intros Hsome.
    destruct (decide (tag_name t ∈ heading_names)) as [Hin|Hnot].
    + split; [done|]. destruct Hsome as [h Hh]. unfold section_of in Hh.
      destruct (level_of_name (tag_name t)); [|done].
      destruct (bool_decide _); [|done]. cbn [andb] in Hh.
      destruct (Str.is_empty (trimmed_text t)) eqn:He; [done|].
      by apply is_empty_false.
    + rewrite section_of_other in Hsome by done. by destruct Hsome.
  - intros [Hin Hne].
    destruct (heading_level_found _ Hin) as (level & _ & Hname & Hrange).
    unfold section_of. rewrite Hname, bool_decide_eq_true_2 by done.
    apply is_empty_false in Hne. rewrite Hne. by eexists.
Qed.

Lemma section_of_level t h :
  section_of t = Some h →
  (2 ≤ h_level h ≤ 6)%Z ∧ h_text h ≠ "" ∧
  h_text h = trimmed_text t ∧ h_id h = tag_get t "id" "" ∧
  level_of_name (tag_name t) = Some (h_level h).
Proof.
  unfold section_of. destruct (level_of_name (tag_name t)) as [level|]; [|done].
  case_bool_decide as Hrange; [|done]. cbn [andb].
  destruct (Str.is_empty (trimmed_text t)) eqn:He; [done|].
  intros [= <-]. cbn. by apply is_empty_false in He.
Qed.

Lemma length_omap_filter {A B} (f : A → option B) (l : list A) :
  length (omap f l) = length (filter (λ x, is_Some (f x)) l).
Proof.
  induction l as [|x l IH]; [done|]. rewrite filter_cons. csimpl.
  destruct (f x) as [y|] eqn:Hx.
  - rewrite decide_True by (by eexists). simpl. by rewrite IH.
  - rewrite decide_False by (by intros [? ?]). done.
Qed.

(** C8.  The sections of a page.  When the parser accepts the fragment,
    the sections are the outline: the tags of the fragment taken in
    document order, a tag giving a section, with its trimmed text, its
    level and its id, exactly when it is one of [h2] to [h6] and its
    trimmed text is not empty.  So every section has a level from 2 to 6
    and a non-empty text, an [h1] gives none, and there are as many
    sections as such tags: none is merged with another or moved under
    another.  On the headings of the specification the sections are
    [A] (2), [A.1] (3), [B] (2). *)
Theorem page_sections tc html parsed :
  html_parser tc html = Ok parsed →
  ∃ info,
    extract_page_info tc html = Ok info ∧
    pi_sections info = outline parsed ∧
    (∀ t, is_Some (section_of t) ↔
       tag_name t ∈ heading_names ∧ Str.strip (get_text (contents t)) ≠ "") ∧
    (∀ t h, section_of t = Some h →
       (2 ≤ h_level h ≤ 6)%Z ∧ h_text h ≠ "" ∧
       h_text h = trimmed_text t ∧ h_id h = tag_get t "id" "" ∧
       level_of_name (tag_name t) = Some (h_level h)) ∧
    (∀ t, tag_name t = "h1" → section_of t = None) ∧
    Forall (λ h, (2 ≤ h_level h ≤ 6)%Z ∧ h_text h ≠ "") (pi_sections info) ∧
    length (pi_sections info)
    = length (filter (λ t, is_Some (section_of t)) (tags parsed)) ∧
    (parsed = headings_soup →
       pi_sections info
       = [ {| h_text := "A"; h_level := 2; h_id := "" |};
           {| h_text := "A.1"; h_level := 3; h_id := "" |};
           {| h_text := "B"; h_level := 2; h_id := "" |} ]).
Proof.
  intros Hparse. eexists. split.
  { unfold extract_page_info. rewrite Hparse. cbn [obind].
    rewrite sections_outline. cbn [obind]. reflexivity. }
  cbn [pi_sections]. split_and!.
  - done.
  - apply section_of_is_Some.
  - apply section_of_level.
  - intros t Ht. apply section_of_other. rewrite Ht. unfold heading_names.
    rewrite !elem_of_cons, elem_of_nil. naive_solver.
  - apply Forall_forall. intros h Hh. unfold outline in Hh.
    apply list_elem_of_omap in Hh as (t & _ & Ht).
    apply section_of_level in Ht. naive_solver.
  - apply length_omap_filter.
  - by intros ->.
Qed.

Lemma page_sections_witness :
  ∃ info,
    extract_page_info bare_tools headings_fragment = Ok info ∧
    pi_sections info = outline headings_soup ∧
    (∀ t, is_Some (section_of t) ↔
       tag_name t ∈ heading_names ∧ Str.strip (get_text (contents t)) ≠ "") ∧
    (∀ t h, section_of t = Some h →
       (2 ≤ h_level h ≤ 6)%Z ∧ h_text h ≠ "" ∧
       h_text h = trimmed_text t ∧ h_id h = tag_get t "id" "" ∧
       level_of_name (tag_name t) = Some (h_level h)) ∧
    (∀ t, tag_name t = "h1" → section_of t = None) ∧
    Forall (λ h, (2 ≤ h_level h ≤ 6)%Z ∧ h_text h ≠ "") (pi_sections info) ∧
    length (pi_sections info)
    = length (filter (λ t, is_Some (section_of t)) (tags headings_soup)) ∧
    (headings_soup = headings_soup →
       pi_sections info
       = [ {| h_text := "A"; h_level := 2; h_id := "" |};
           {| h_text := "A.1"; h_level := 3; h_id := "" |};
           {| h_text := "B"; h_level := 2; h_id := "" |} ]).
Proof.
  apply (page_sections bare_tools headings_fragment headings_soup).
  reflexivity.
Defined.

(** Nested and repeated headings are listed where they stand, with
    their id; an empty heading and an [h1] are not listed. *)
Example outline_nested_repeated :
  outline
    [ elem "h1" [NText "Title"];
      elem "div"
        [ NElem "h4" {["id" := "deep"]} [NText " Deep "];
          elem "h2" [NText "Same"; elem "h3" [NText "Inner"]] ];
      elem "h2" [NText "   "];
      elem "h2" [NText "Same"] ]
  = [ {| h_text := "Deep"; h_level := 4; h_id := "deep" |};
      {| h_text := "SameInner"; h_level := 2; h_id := "" |};
      {| h_text := "Inner"; h_level := 3; h_id := "" |};
      {| h_text := "Same"; h_level := 2; h_id := "" |} ].
Proof. vm_compute. reflexivity. Qed.

(** ** Page listing *)

Example listing_demo :
  (list_all_docset_pages listing_host listing_tools "demo" true demo_client).1
  = Ok [ page_with_details (entry "A" "a" "Guide")
           {| pi_title := Some "Alpha";
              pi_sections := [{| h_text := "Use"; h_level := 2; h_id := "" |}] |};
         page_with_error (entry "B" "missing" "Guide")
           (mk_exc HTTPStatusError "HTTP status error");
         base_page (entry "Overview" "" "Guide");
         page_with_error (entry "C" "broken" "API")
           (mk_exc ParserRejectedMarkup "expected name token");
         page_with_details (entry "D" "a" "API")
           {| pi_title := Some "Alpha";
              pi_sections := [{| h_text := "Use"; h_level := 2; h_id := "" |}] |} ].
Proof. vm_compute. reflexivity. Qed.

Example listing_demo_requests :
  requests
    (list_all_docset_pages listing_host listing_tools "demo" true demo_client).2
  = [ "http://localhost:9292/docs/demo/index.json";
      "http://localhost:9292/docs/demo/a.html";
      "http://localhost:9292/docs/demo/missing.html";
      "http://localhost:9292/docs/demo/broken.html";
      "http://localhost:9292/docs/demo/a.html" ].
Proof. vm_compute. reflexivity. Qed.

Section ListingFacts.

Variable up : Upstream.
Variable tc : Toolchain.

Lemma page_of_entry_skip slug include_sections entry c :
  include_sections && has_path entry = false →
  page_of_entry up tc slug include_sections entry c = (Ok (base_page entry), c).
Proof.
  intros Hskip. unfold page_of_entry. fold (has_path entry). by rewrite Hskip.
Qed.

(** With a path to fetch, the loop body makes one request and the page
    follows from the outcome of that fetch and of the derivation; only an
    exception that is no [Exception] escapes. *)
Lemma page_of_entry_fetch slug entry c :
  has_path entry = true →
  let url := content_url c slug (dict_get entry "path" "") in
  page_of_entry up tc slug true entry c
  = (match details_at up tc (length (requests c)) url with
     | Ok d => Ok (page_with_details entry d)
     | Raise e =>
         if caught_by Exception e then Ok (page_with_error entry e)
         else Raise e
     end, logged c url).
Proof.
  intros Hpath url. unfold page_of_entry. fold (has_path entry).
  rewrite Hpath. cbn [andb].
  unfold try_except, bind, get_doc_content, http_get, lift, ret, details_at.
  cbn -[caught_by extract_page_info]. fold url.
  destruct (up (length (requests c)) url) as [r|e];
    cbn -[caught_by extract_page_info].
  - destruct (raise_for_status r) as [[]|e];
      cbn -[caught_by extract_page_info].
    + destruct (extract_page_info tc (text r)) as [d|e];
        cbn -[caught_by]; [done|].
      by destruct (caught_by Exception e).
    + by destruct (caught_by Exception e).
  - by destruct (caught_by Exception e).
Qed.

End ListingFacts.

Section ListingLoop.

Variable up : Upstream.
Variable tc : Toolchain.

Hypothesis host_ordinary : ordinary_host up.
Hypothesis parser_ordinary : ordinary_parser tc.

Lemma details_ordinary n url e :
  details_at up tc n url = Raise e → caught_by Exception e = true.
Proof.
  unfold details_at. destruct (up n url) as [r|e'] eqn:Hup; cbn [obind].
  - unfold raise_for_status. destruct (is_success r); cbn [obind].
    + unfold extract_page_info.
      destruct (html_parser tc (text r)) as [parsed|e'] eqn:Hparse;
        cbn [obind].
      * by rewrite sections_outline.
      * intros [= <-]. by eapply parser_ordinary.
    + by intros [= <-].
  - intros [= <-]. by eapply host_ordinary.
Qed.

Lemma page_of_entry_ordinary slug entry c :
  has_path entry = true →
  page_of_entry up tc slug true entry c
  = (Ok (page_by_outcome entry
           (details_at up tc (length (requests c)) (entry_url c slug entry))),
     logged c (entry_url c slug entry)).
Proof.
  intros Hpath. rewrite page_of_entry_fetch by done. unfold entry_url.
  destruct (details_at _ _ _ _) as [d|e] eqn:Hd; [done|].
  by rewrite (details_ordinary _ _ _ Hd).
Qed.

Lemma logged_all_nil c : logged_all c [] = c.
Proof. destruct c. unfold logged_all. cbn. by rewrite app_nil_r. Qed.

Lemma logged_all_cons c url urls :
  logged_all (logged c url) urls = logged_all c (url :: urls).
Proof. unfold logged_all, logged. cbn. by rewrite <-app_assoc. Qed.

(** The loop with sections: one page for each entry, by that entry's
    outcome, and one request for each entry with a path. *)
Lemma process_entries_sections c0 slug entries :
  ∀ pages c, base_url c = base_url c0 →
    process_entries up tc slug true pages entries c
    = (Ok (pages ++ pages_from up tc c0 slug (length (requests c)) entries),
       logged_all c (content_requests c0 slug entries)).
Proof.
  induction entries as [|entry rest IH]; intros pages c Hbase.
  - cbn. by rewrite app_nil_r, logged_all_nil.
  - cbn [process_entries pages_from]. unfold bind, content_requests.
    rewrite filter_cons.
    assert (entry_url c slug entry = entry_url c0 slug entry) as Hurl.
    { unfold entry_url, content_url. by rewrite Hbase. }
    destruct (has_path entry) eqn:Hpath.
    + rewrite page_of_entry_ordinary, Hurl by done.
      rewrite IH by done. cbn [logged requests].
      rewrite length_app, Nat.add_1_r, <-app_assoc. cbn [app].
      rewrite decide_True by done. by rewrite fmap_cons, logged_all_cons.
    + rewrite page_of_entry_skip by (by rewrite Hpath).
      rewrite IH by done. rewrite <-app_assoc. cbn [app].
      by rewrite decide_False by done.
Qed.

End ListingLoop.

(** The loop without sections makes no request. *)
Lemma process_entries_plain up tc slug entries :
  ∀ pages c,
    process_entries up tc slug false pages entries c
    = (Ok (pages ++ (base_page <$> entries)), c).
Proof.
  induction entries as [|entry rest IH]; intros pages c.
  - cbn. by rewrite app_nil_r.
  - cbn [process_entries]. unfold bind.
    rewrite page_of_entry_skip by done. rewrite IH, <-app_assoc. done.
Qed.

Lemma get_doc_index_logged up c slug ix :
  index_served up c slug ix →
  get_doc_index up slug c = (Ok (JIndex ix), logged c (index_url c slug)).
Proof.
  intros (r & Hr & Hs & Hj).
  unfold get_doc_index, bind, http_get, lift, raise_for_status. cbn.
  rewrite Hr. cbn. rewrite Hs. cbn. by rewrite Hj.
Qed.

(** The page at a position of the specification of the listing. *)
Lemma pages_from_lookup up tc c slug entries :
  ∀ n i entry, entries !! i = Some entry →
    pages_from up tc c slug n entries !! i
    = Some (if has_path entry
            then page_by_outcome entry
                   (details_at up tc
                      (n + length (filter (λ e, has_path e = true)
                                     (take i entries)))
                      (entry_url c slug entry))
            else base_page entry).
Proof.
  induction entries as [|e rest IH]; intros n i entry Hi; [done|].
  destruct i as [|i].
  - injection Hi as ->. cbn [pages_from take]. rewrite filter_nil, Nat.add_0_r.
    by destruct (has_path entry).
  - cbn [pages_from take]. rewrite filter_cons.
    destruct (has_path e) eqn:He.
    + rewrite decide_True by done. rewrite lookup_cons. cbn [length].
      rewrite (IH (S n) i entry Hi).
      by replace (S n + length (filter (λ e0, has_path e0 = true) (take i rest)))
        with (n + S (length (filter (λ e0, has_path e0 = true) (take i rest))))
        by lia.
    + rewrite decide_False by done. rewrite lookup_cons.
      by rewrite (IH n i entry Hi).
Qed.

Lemma pages_from_length up tc c slug entries :
  ∀ n, length (pages_from up tc c slug n entries) = length entries.
Proof.
  induction entries as [|e rest IH]; intros n; [done|].
  cbn [pages_from]. destruct (has_path e); cbn; by rewrite IH.
Qed.

(** The whole listing with sections. *)
Lemma listing_with_sections up tc c slug ix :
  index_served up c slug ix → ordinary_host up → ordinary_parser tc →
  list_all_docset_pages up tc slug true c
  = (Ok (pages_from up tc c slug (S (length (requests c))) (entries_of ix)),
     logged_all c (index_url c slug :: content_requests c slug (entries_of ix))).
Proof.
  intros Hix Hup Htc. unfold list_all_docset_pages, try_except, bind.
  rewrite (get_doc_index_logged _ _ _ _ Hix). cbn [lift index_entries].
  fold (entries_of ix).
  rewrite (process_entries_sections up tc Hup Htc c) by done.
  cbn [logged requests app]. rewrite length_app, Nat.add_1_r.
  by rewrite logged_all_cons.
Qed.

Lemma listing_plain up tc c slug ix :
  index_served up c slug ix →
  list_all_docset_pages up tc slug false c
  = (Ok (base_page <$> entries_of ix), logged c (index_url c slug)).
Proof.
  intros Hix. unfold list_all_docset_pages, try_except, bind.
  rewrite (get_doc_index_logged _ _ _ _ Hix). cbn [lift index_entries].
  fold (entries_of ix). by rewrite process_entries_plain.
Qed.

(** *** The keys of a page *)

Lemma base_page_lookup entry :
  base_page entry !! "name" = Some (VStr (dict_get entry "name" "")) ∧
  base_page entry !! "path" = Some (VStr (dict_get entry "path" "")) ∧
  base_page entry !! "type" = Some (VStr (dict_get entry "type" "")) ∧
  base_page entry !! "title" = Some VNone ∧
  base_page entry !! "sections" = Some (VSections []) ∧
  base_page entry !! "error" = None.
Proof. unfold base_page. split_and!; by simplify_map_eq. Qed.

Lemma page_with_details_lookup entry d :
  page_with_details entry d !! "name" = Some (VStr (dict_get entry "name" "")) ∧
  page_with_details entry d !! "path" = Some (VStr (dict_get entry "path" "")) ∧
  page_with_details entry d !! "type" = Some (VStr (dict_get entry "type" "")) ∧
  page_with_details entry d !! "title" = Some (title_value (pi_title d)) ∧
  page_with_details entry d !! "sections" = Some (VSections (pi_sections d)) ∧
  page_with_details entry d !! "error" = None.
Proof.
  unfold page_with_details, base_page. split_and!; by simplify_map_eq.
Qed.

Lemma page_with_error_lookup entry e :
  page_with_error entry e !! "name" = Some (VStr (dict_get entry "name" "")) ∧
  page_with_error entry e !! "path" = Some (VStr (dict_get entry "path" "")) ∧
  page_with_error entry e !! "type" = Some (VStr (dict_get entry "type" "")) ∧
  page_with_error entry e !! "title" = Some VNone ∧
  page_with_error entry e !! "sections" = Some (VSections []) ∧
  page_with_error entry e !! "error"
  = Some (VStr ("Could not fetch content: " +:+ exc_msg e)).
Proof.
  unfold page_with_error, base_page. split_and!; by simplify_map_eq.
Qed.

(** C2.  Isolation of page failures.  With the index fetched, and the
    failures of the host and of the parser being errors, the listing with
    sections returns one page for each entry, in the order of the index,
    with the entry's name, path and type.  For an entry with a path the
    page follows from the outcome of its own fetch and derivation alone:
    when that raises, the page has the error text, no title and no
    sections; when it succeeds, the page has the title and the sections
    found and no error key.  No failure ends the listing or changes
    another page. *)
Theorem listing_isolates_failures up tc c slug ix :
  index_served up c slug ix → ordinary_host up → ordinary_parser tc →
  ∃ pages,
    (list_all_docset_pages up tc slug true c).1 = Ok pages ∧
    length pages = length (entries_of ix) ∧
    ∀ i entry, entries_of ix !! i = Some entry →
      ∃ page, pages !! i = Some page ∧
        page !! "name" = Some (VStr (dict_get entry "name" "")) ∧
        page !! "path" = Some (VStr (dict_get entry "path" "")) ∧
        page !! "type" = Some (VStr (dict_get entry "type" "")) ∧
        (has_path entry = true →
           match details_at up tc (fetch_number c (entries_of ix) i)
                   (entry_url c slug entry) with
           | Raise e =>
               page !! "error"
               = Some (VStr ("Could not fetch content: " +:+ exc_msg e)) ∧
               page !! "title" = Some VNone ∧
               page !! "sections" = Some (VSections [])
           | Ok d =>
               page !! "error" = None ∧
               page !! "title" = Some (title_value (pi_title d)) ∧
               page !! "sections" = Some (VSections (pi_sections d))
           end).
Proof.
  intros Hix Hup Htc. eexists. split.
  { by rewrite (listing_with_sections _ _ _ _ _ Hix Hup Htc). }
  split; [apply pages_from_length|].
  intros i entry Hi. eexists. split; [by apply pages_from_lookup|].
  unfold fetch_number.
  replace (length (requests c) + 1) with (S (length (requests c))) by lia.
  destruct (has_path entry).
  - destruct (details_at _ _ _ _) as [d|e]; cbn [page_by_outcome].
    + pose proof (page_with_details_lookup entry d). naive_solver.
    + pose proof (page_with_error_lookup entry e). naive_solver.
  - pose proof (base_page_lookup entry). naive_solver.
Qed.

Lemma listing_index_served :
  index_served listing_host demo_client "demo" listing_index.
Proof. eexists. split_and!; reflexivity. Defined.

Lemma listing_host_ordinary : ordinary_host listing_host.
Proof.
  intros n url e. unfold listing_host, ok_json, ok_text, not_found.
  repeat case_bool_decide; discriminate.
Defined.

Lemma listing_tools_ordinary : ordinary_parser listing_tools.
Proof.
  intros html e. unfold listing_tools, parse_table. cbn [html_parser].
  repeat case_bool_decide; try discriminate. by intros [= <-].
Defined.

Lemma listing_isolates_failures_witness :
  ∃ pages,
    (list_all_docset_pages listing_host listing_tools "demo" true demo_client).1
    = Ok pages ∧
    length pages = length (entries_of listing_index) ∧
    ∀ i entry, entries_of listing_index !! i = Some entry →
      ∃ page, pages !! i = Some page ∧
        page !! "name" = Some (VStr (dict_get entry "name" "")) ∧
        page !! "path" = Some (VStr (dict_get entry "path" "")) ∧
        page !! "type" = Some (VStr (dict_get entry "type" "")) ∧
        (has_path entry = true →
           match details_at listing_host listing_tools
                   (fetch_number demo_client (entries_of listing_index) i)
                   (entry_url demo_client "demo" entry) with
           | Raise e =>
               page !! "error"
               = Some (VStr ("Could not fetch content: " +:+ exc_msg e)) ∧
               page !! "title" = Some VNone ∧
               page !! "sections" = Some (VSections [])
           | Ok d =>
               page !! "error" = None ∧
               page !! "title" = Some (title_value (pi_title d)) ∧
               page !! "sections" = Some (VSections (pi_sections d))
           end).
Proof.
  exact (listing_isolates_failures listing_host listing_tools demo_client
           "demo" listing_index listing_index_served listing_host_ordinary
           listing_tools_ordinary).
Defined.

(** A signal that is no [Exception] is not a page failure: it passes both
    handlers and ends the listing. *)
Example listing_cancelled :
  (list_all_docset_pages
     (λ n url, match n with
               | O => ok_json (JIndex listing_index)
               | S _ => Raise (mk_exc CancelledError "")
               end)
     listing_tools "demo" true demo_client).1
  = Raise (mk_exc CancelledError "").
Proof. vm_compute. reflexivity. Qed.

(** *** The shape of the pages, whatever the environment does *)

Lemma page_of_entry_inv up tc slug include_sections entry c page c' :
  page_of_entry up tc slug include_sections entry c = (Ok page, c') →
  page_shape include_sections entry page ∧
  c' = logged_all c
         (if include_sections && has_path entry
          then [entry_url c slug entry] else []).
Proof.
  destruct (include_sections && has_path entry) eqn:Hfetch.
  - apply andb_true_iff in Hfetch as [-> Hpath].
    rewrite page_of_entry_fetch by done. fold (entry_url c slug entry).
    destruct (details_at _ _ _ _) as [d|e].
    + intros [= <- <-]. split; [|done]. right. eauto.
    + destruct (caught_by Exception e); [|done].
      intros [= <- <-]. split; [|done]. right. eauto 6.
  - rewrite page_of_entry_skip by done. intros [= <- <-].
    split; [by left|]. by rewrite logged_all_nil.
Qed.

Lemma process_entries_inv up tc slug include_sections c0 entries :
  ∀ pages c result c',
    base_url c = base_url c0 →
    process_entries up tc slug include_sections pages entries c
    = (Ok result, c') →
    ∃ ps, result = pages ++ ps ∧
          Forall2 (page_shape include_sections) entries ps ∧
          c' = logged_all c
                 (if include_sections then content_requests c0 slug entries
                  else []).
Proof.
  induction entries as [|entry rest IH]; intros pages c result c' Hbase.
  - cbn. intros [= <- <-]. exists []. rewrite app_nil_r.
    split_and!; [done|constructor|].
    destruct include_sections; by rewrite logged_all_nil.
  - cbn [process_entries]. unfold bind.
    destruct (page_of_entry _ _ _ _ _ _) as [[page|e] c1] eqn:Hpage; [|done].
    apply page_of_entry_inv in Hpage as [Hshape ->].
    intros (ps & -> & Hps & ->)%IH; [|done].
    exists (page :: ps). rewrite <-app_assoc. split_and!; [done|by constructor|].
    assert (entry_url c slug entry = entry_url c0 slug entry) as Hurl.
    { unfold entry_url, content_url. by rewrite Hbase. }
    unfold content_requests, logged_all. cbn [requests base_url docs_cache].
    rewrite <-app_assoc. do 2 f_equal. rewrite filter_cons.
    destruct include_sections; cbn [andb]; [|done].
    destruct (has_path entry); [|by rewrite decide_False].
    rewrite decide_True by done. by rewrite fmap_cons, Hurl.
Qed.

Lemma list_all_docset_pages_inv up tc slug include_sections c pages c' :
  list_all_docset_pages up tc slug include_sections c = (Ok pages, c') →
  ∃ index entries,
    (get_doc_index up slug c).1 = Ok index ∧
    index_entries index = Ok entries ∧
    Forall2 (page_shape include_sections) entries pages ∧
    requests c'
    = requests c ++ index_url c slug ::
        (if include_sections then content_requests c slug entries else []).
Proof.
  unfold list_all_docset_pages, try_except, bind.
  destruct (get_doc_index up slug c) as [[index|e] c1] eqn:Hindex.
  2: { by destruct (caught_by Exception e). }
  assert (c1 = logged c (index_url c slug)) as ->.
  { unfold get_doc_index, bind, http_get in Hindex. cbn in Hindex.
    destruct (up _ _) as [r|?]; cbn in Hindex; [|by injection Hindex].
    destruct (raise_for_status r) as [[]|?]; cbn in Hindex;
      [|by injection Hindex].
    unfold lift in Hindex. by injection Hindex. }
  unfold lift. destruct (index_entries index) as [entries|e] eqn:Hentries.
  2: { by destruct (caught_by Exception e). }
  destruct (process_entries _ _ _ _ _ _ _) as [[result|e] c2] eqn:Hloop.
  2: { by destruct (caught_by Exception e). }
  intros [= <- <-].
  apply (process_entries_inv _ _ _ _ c) in Hloop as (ps & -> & Hps & ->);
    [|done].
  exists index, entries. split_and!; [done..|].
  cbn. by rewrite <-app_assoc.
Qed.

Lemma page_shape_keys include_sections entry page :
  page_shape include_sections entry page →
  Forall (λ k, is_Some (page !! k)) page_keys ∧
  page !! "name" = Some (VStr (dict_get entry "name" "")) ∧
  page !! "path" = Some (VStr (dict_get entry "path" "")) ∧
  page !! "type" = Some (VStr (dict_get entry "type" "")).
Proof.
  unfold page_keys.
  intros [->|(_ & _ & [[d ->]|[e ->]])];
    [pose proof (base_page_lookup entry) as H
    |pose proof (page_with_details_lookup entry d) as H
    |pose proof (page_with_error_lookup entry e) as H];
    destruct H as (? & ? & ? & ? & ? & ?);
    (split; [repeat constructor; by eexists|done]).
Qed.

Lemma page_of_entry_fetch_inv up tc slug entry c page c' :
  has_path entry = true →
  page_of_entry up tc slug true entry c = (Ok page, c') →
  page = page_by_outcome entry
           (details_at up tc (length (requests c)) (entry_url c slug entry)) ∧
  c' = logged c (entry_url c slug entry).
Proof.
  intros Hpath. rewrite page_of_entry_fetch by done.
  fold (entry_url c slug entry).
  destruct (details_at _ _ _ _) as [d|e]; cbn [page_by_outcome].
  - by intros [= <- <-].
  - destruct (caught_by Exception e); [|done]. by intros [= <- <-].
Qed.

(** A loop with sections that returns has built each page from the
    outcome of that entry's own fetch and derivation. *)
Lemma process_entries_sections_inv up tc c0 slug entries :
  ∀ pages c result c', base_url c = base_url c0 →
    process_entries up tc slug true pages entries c = (Ok result, c') →
    result = pages ++ pages_from up tc c0 slug (length (requests c)) entries.
Proof.
  induction entries as [|entry rest IH]; intros pages c result c' Hbase.
  - cbn. intros [= <- <-]. by rewrite app_nil_r.
  - cbn [process_entries pages_from]. unfold bind.
    assert (entry_url c slug entry = entry_url c0 slug entry) as Hurl.
    { unfold entry_url, content_url. by rewrite Hbase. }
    destruct (has_path entry) eqn:Hpath.
    + destruct (page_of_entry _ _ _ _ _ _) as [[page|e] c1] eqn:Hpage; [|done].
      apply page_of_entry_fetch_inv in Hpage as [-> ->]; [|done].
      intros Hrest. apply IH in Hrest; [|done]. rewrite Hrest.
      cbn [logged requests]. rewrite length_app, Nat.add_1_r, <-app_assoc.
      by rewrite Hurl.
    + rewrite page_of_entry_skip by (by rewrite Hpath).
      intros Hrest. apply IH in Hrest; [|done]. by rewrite Hrest, <-app_assoc.
Qed.

(** A listing that returns: the index it read and the pages it built. *)
Lemma list_all_docset_pages_pages up tc slug include_sections c pages c' :
  list_all_docset_pages up tc slug include_sections c = (Ok pages, c') →
  ∃ index entries,
    (get_doc_index up slug c).1 = Ok index ∧
    index_entries index = Ok entries ∧
    pages = (if include_sections
             then pages_from up tc c slug (S (length (requests c))) entries
             else base_page <$> entries).
Proof.
  unfold list_all_docset_pages, try_except, bind.
  destruct (get_doc_index up slug c) as [[index|e] c1] eqn:Hindex.
  2: { by destruct (caught_by Exception e). }
  assert (c1 = logged c (index_url c slug)) as ->.
  { unfold get_doc_index, bind, http_get in Hindex. cbn in Hindex.
    destruct (up _ _) as [r|?]; cbn in Hindex; [|by injection Hindex].
    destruct (raise_for_status r) as [[]|?]; cbn in Hindex;
      [|by injection Hindex].
    unfold lift in Hindex. by injection Hindex. }
  unfold lift. destruct (index_entries index) as [entries|e] eqn:Hentries.
  2: { by destruct (caught_by Exception e). }
  destruct (process_entries _ _ _ _ _ _ _) as [[result|e] c2] eqn:Hloop.
  2: { by destruct (caught_by Exception e). }
  intros [= <- <-]. exists index, entries. split_and!; [done..|].
  destruct include_sections.
  - apply (process_entries_sections_inv _ _ c) in Hloop; [|done].
    rewrite Hloop. cbn [app logged requests].
    by rewrite length_app, Nat.add_1_r.
  - rewrite process_entries_plain in Hloop. by injection Hloop as <- _.
Qed.

(** C9.  The shape of the pages.  Whatever the host and the tools do,
    when the listing returns, it returns one page for each entry of the
    index it fetched, in order, and every page has the keys [name],
    [path], [type], [title] and [sections].  Without sections, or for an
    entry whose path is empty or missing, the page is the minimal one:
    title [None], sections empty, no error key; and no request is made
    for it: the requests are the one for the index and then one for each
    entry that has a path, none without sections.  With sections and a
    path the page follows from the outcome of that entry's own fetch and
    derivation: the title and sections found and no error key when it
    succeeded, the error text with title [None] and sections empty when
    it raised.  So an error key needs sections to be asked for and a
    path. *)
Theorem listing_page_shape up tc slug include_sections c pages c' :
  list_all_docset_pages up tc slug include_sections c = (Ok pages, c') →
  ∃ index entries,
    (get_doc_index up slug c).1 = Ok index ∧
    index_entries index = Ok entries ∧
    length pages = length entries ∧
    requests c'
    = requests c ++ index_url c slug ::
        (if include_sections then content_requests c slug entries else []) ∧
    ∀ i entry, entries !! i = Some entry →
      ∃ page, pages !! i = Some page ∧
        Forall (λ k, is_Some (page !! k)) page_keys ∧
        page !! "name" = Some (VStr (dict_get entry "name" "")) ∧
        page !! "path" = Some (VStr (dict_get entry "path" "")) ∧
        page !! "type" = Some (VStr (dict_get entry "type" "")) ∧
        (include_sections && has_path entry = false →
           page = base_page entry ∧
           page !! "title" = Some VNone ∧
           page !! "sections" = Some (VSections []) ∧
           page !! "error" = None) ∧
        (include_sections && has_path entry = true →
           match details_at up tc (fetch_number c entries i)
                   (entry_url c slug entry) with
           | Ok d =>
               page = page_with_details entry d ∧
               page !! "title" = Some (title_value (pi_title d)) ∧
               page !! "sections" = Some (VSections (pi_sections d)) ∧
               page !! "error" = None
           | Raise e =>
               page = page_with_error entry e ∧
               page !! "title" = Some VNone ∧
               page !! "sections" = Some (VSections []) ∧
               page !! "error"
               = Some (VStr ("Could not fetch content: " +:+ exc_msg e))
           end) ∧
        (has_path entry = false →
           page = base_page entry ∧ page !! "error" = None) ∧
        (is_Some (page !! "error") →
           include_sections = true ∧ has_path entry = true).
Proof.
  intros Hcall.
  destruct (list_all_docset_pages_inv _ _ _ _ _ _ _ Hcall)
    as (index & entries & Hindex & Hentries & Hshape & Hlog).
  destruct (list_all_docset_pages_pages _ _ _ _ _ _ _ Hcall)
    as (index' & entries' & Hindex' & Hentries' & Hpages).
  rewrite Hindex in Hindex'. injection Hindex' as <-.
  rewrite Hentries in Hentries'. injection Hentries' as <-.
  exists index, entries. split_and!; [done..| |done|].
  { symmetry. by eapply Forall2_length. }
  intros i entry Hi.
  assert (pages !! i
          = Some (if include_sections && has_path entry
                  then page_by_outcome entry
                         (details_at up tc (fetch_number c entries i)
                            (entry_url c slug entry))
                  else base_page entry)) as Hpage.
  { rewrite Hpages. destruct include_sections; cbn [andb].
    - rewrite (pages_from_lookup _ _ _ _ _ _ _ _ Hi). unfold fetch_number.
      by replace (length (requests c) + 1) with (S (length (requests c)))
        by lia.
    - by rewrite list_lookup_fmap, Hi. }
  eexists. split; [exact Hpage|].
  pose proof (base_page_lookup entry) as (Hbn & Hbp & Hbt & Hbti & Hbs & Hbe).
  destruct (include_sections && has_path entry) eqn:Hfetch.
  - apply andb_true_iff in Hfetch as [-> Hpath]. rewrite Hpath.
    destruct (details_at _ _ _ _) as [d|e]; cbn [page_by_outcome].
    + pose proof (page_with_details_lookup entry d)
        as (Hn & Hp & Ht & Hti & Hs & He).
      split_and!; try done;
        try (unfold page_keys; repeat constructor; by eexists);
        try (rewrite He; by intros [? ?]).
    + pose proof (page_with_error_lookup entry e)
        as (Hn & Hp & Ht & Hti & Hs & He).
      split_and!; try done;
        try (unfold page_keys; repeat constructor; by eexists).
  - split_and!; try done;
      try (unfold page_keys; repeat constructor; by eexists);
      try (rewrite Hbe; by intros [? ?]).
Qed.

Lemma listing_page_shape_witness :
  let up := listing_host in
  let tc := listing_tools in
  let slug := "demo" in
  let include_sections := true in
  let c := demo_client in
  let pages := pages_from up tc c slug 1 (entries_of listing_index) in
  let c' := logged_all c (index_url c slug ::
                          content_requests c slug (entries_of listing_index)) in
  ∃ index entries,
    (get_doc_index up slug c).1 = Ok index ∧
    index_entries index = Ok entries ∧
    length pages = length entries ∧
    requests c'
    = requests c ++ index_url c slug ::
        (if include_sections then content_requests c slug entries else []) ∧
    ∀ i entry, entries !! i = Some entry →
      ∃ page, pages !! i = Some page ∧
        Forall (λ k, is_Some (page !! k)) page_keys ∧
        page !! "name" = Some (VStr (dict_get entry "name" "")) ∧
        page !! "path" = Some (VStr (dict_get entry "path" "")) ∧
        page !! "type" = Some (VStr (dict_get entry "type" "")) ∧
        (include_sections && has_path entry = false →
           page = base_page entry ∧
           page !! "title" = Some VNone ∧
           page !! "sections" = Some (VSections []) ∧
           page !! "error" = None) ∧
        (include_sections && has_path entry = true →
           match details_at up tc (fetch_number c entries i)
                   (entry_url c slug entry) with
           | Ok d =>
               page = page_with_details entry d ∧
               page !! "title" = Some (title_value (pi_title d)) ∧
               page !! "sections" = Some (VSections (pi_sections d)) ∧
               page !! "error" = None
           | Raise e =>
               page = page_with_error entry e ∧
               page !! "title" = Some VNone ∧
               page !! "sections" = Some (VSections []) ∧
               page !! "error"
               = Some (VStr ("Could not fetch content: " +:+ exc_msg e))
           end) ∧
        (has_path entry = false →
           page = base_page entry ∧ page !! "error" = None) ∧
        (is_Some (page !! "error") →
           include_sections = true ∧ has_path entry = true).
Proof.
  intros up tc slug include_sections c pages c'.
  apply (listing_page_shape up tc slug include_sections c pages c').
  by vm_compute.
Defined.

(** Without sections every page is the minimal one and the index is the
    only request, whatever the host would answer for the pages. *)
Example listing_plain_demo :
  list_all_docset_pages listing_host listing_tools "demo" false demo_client
  = (Ok (base_page <$> entries_of listing_index),
     logged demo_client "http://localhost:9292/docs/demo/index.json").
Proof. vm_compute. reflexivity. Qed.

(** * Further properties of the client *)

(** ** The filter and the tiers as substring facts *)

Lemma startswith_iff p s :
  Str.startswith p s = true ↔ ∃ b, s = p +:+ b.
Proof.
  revert s. induction p as [|a p IH]; intros s.
  - rewrite startswith_empty. split; [intros _; by exists s|done].
  - destruct s as [|c s]; cbn [Str.startswith].
    + split; [done|]. by intros [b Hb].
    + rewrite andb_true_iff, bool_decide_eq_true, IH. split.
      * intros [-> [b ->]]. by exists b.
      * intros [b Hb]. rewrite append_cons in Hb. injection Hb as -> ->.
        split; [done|by exists b].
Qed.

Lemma contains_cons q c s :
  Str.contains q (String c s)
  = Str.startswith q (String c s) || Str.contains q s.
Proof. reflexivity. Qed.

Lemma contains_iff q s :
  Str.contains q s = true ↔ ∃ a b, s = a +:+ q +:+ b.
Proof.
  induction s as [|c s IH].
  - cbn [Str.contains]. rewrite orb_false_r, startswith_iff. split.
    + intros [b Hb]. by exists "", b.
    + intros (a & b & Hab). destruct a; [by exists b|done].
  - rewrite contains_cons, orb_true_iff, startswith_iff, IH. split.
    + intros [[b Hb]|(a & b & ->)].
      * by exists "", b.
      * by exists (String c a), b.
    + intros (a & b & Hab). destruct a as [|c' a].
      * left. by exists b.
      * right. rewrite append_cons in Hab. injection Hab as -> ->.
        by exists a, b.
Qed.

Lemma append_empty_r a : a +:+ "" = a.
Proof. induction a as [|c a IH]; [done|]. by rewrite append_cons, IH. Qed.

Lemma exact_is_match q (e : Entry) : exact_match q e → is_match q e.
Proof.
  unfold is_match, exact_match. fold (folded_name e).
  intros <-. apply contains_iff. exists "", "".
  by rewrite append_empty_l, append_empty_r.
Qed.

Lemma prefix_is_match q (e : Entry) : prefix_match q e → is_match q e.
Proof.
  unfold is_match, prefix_match. fold (folded_name e).
  intros [[b Hb]%startswith_iff _]. apply contains_iff. by exists "", b.
Qed.

(** X1.  What the filter and the prefix test of the search mean: an
    entry is kept exactly when its lowercased name is some text, then the
    lowercased query, then some text; it is ranked as a prefix (or exact)
    match exactly when the text in front is empty. *)
Theorem filter_is_substring q (e : Entry) :
  (is_match q e ↔ ∃ a b, folded_name e = a +:+ q +:+ b) ∧
  (Str.startswith q (folded_name e) = true ↔ ∃ b, folded_name e = q +:+ b) ∧
  (exact_match q e → is_match q e) ∧
  (prefix_match q e → is_match q e).
Proof.
  split_and!.
  - unfold is_match. fold (folded_name e). apply contains_iff.
  - apply startswith_iff.
  - apply exact_is_match.
  - apply prefix_is_match.
Qed.

(** ** Soundness and completeness of the search *)

Lemma sort_key_tier_0 q e : (sort_key q e).1 = 0 → exact_match q e.
Proof.
  unfold sort_key, exact_match, folded_name.
  case_bool_decide; [done|]. by destruct (Str.startswith _ _).
Qed.

(** The first element of a strongly sorted list is below all others. *)
Lemma StronglySorted_head {A} (R : relation A) x l y :
  StronglySorted R (x :: l) → y ∈ x :: l → y = x ∨ R x y.
Proof.
  intros Hs Hy. apply StronglySorted_inv in Hs as [_ Hall].
  apply elem_of_cons in Hy as [->|Hy]; [by left|right].
  rewrite Forall_forall in Hall. by apply Hall.
Qed.

(** X2.  The search is sound and complete up to its limit.  Every
    returned entry is an entry of the index whose lowercased name
    contains the lowercased query.  When at most 20 entries match, the
    result is a rearrangement of all of them: none is lost and none is
    repeated more often than in the index.  When some entry of the index
    matches exactly, the first result is an exact match. *)
Theorem search_sound_complete up c slug query ix :
  index_served up c slug ix →
  let q := Str.lower query in
  ∃ out,
    (search_doc_entries up slug query c).1 = Ok out ∧
    (∀ e, e ∈ out → e ∈ entries_of ix ∧ is_match q e) ∧
    (length (filter (is_match q) (entries_of ix)) ≤ 20 →
       out ≡ₚ filter (is_match q) (entries_of ix)) ∧
    (∀ e, e ∈ entries_of ix → exact_match q e →
       ∃ top, out !! 0 = Some top ∧ exact_match q top).
Proof.
  intros Hix q. eexists. split; [by apply search_doc_entries_served|].
  fold q. set (matches := filter (is_match q) (entries_of ix)).
  split_and!.
  - intros e He. apply (sublist_subseteq _ _ (sublist_take _ 20)) in He.
    apply sorted_elem_of, list_elem_of_filter in He. naive_solver.
  - intros Hlen. rewrite take_ge by (by rewrite sorted_length).
    apply sorted_perm.
  - intros e He Hexact.
    assert (e ∈ sorted (sort_key q) key_ltb matches) as Hin.
    { apply sorted_elem_of, list_elem_of_filter. split; [|done].
      by apply exact_is_match. }
    pose proof (ranked_ascending q matches) as Hsorted.
    destruct (sorted (sort_key q) key_ltb matches) as [|top rest] eqn:Hs.
    { by apply elem_of_nil in Hin. }
    exists top. split; [done|].
    destruct (StronglySorted_head _ _ _ _ Hsorted Hin) as [<-|Hle]; [done|].
    apply sort_key_tier_0. unfold key_le, key_ltb in Hle.
    pose proof (sort_key_exact _ _ Hexact) as He0.
    case_bool_decide as Heq; [congruence|].
    apply Nat.ltb_ge in Hle. lia.
Qed.

Lemma search_sound_complete_witness :
  let q := Str.lower "REACT" in
  ∃ out,
    (search_doc_entries demo_host "svelte" "REACT" demo_client).1 = Ok out ∧
    (∀ e, e ∈ out → e ∈ entries_of demo_index ∧ is_match q e) ∧
    (length (filter (is_match q) (entries_of demo_index)) ≤ 20 →
       out ≡ₚ filter (is_match q) (entries_of demo_index)) ∧
    (∀ e, e ∈ entries_of demo_index → exact_match q e →
       ∃ top, out !! 0 = Some top ∧ exact_match q top).
Proof.
  exact (search_sound_complete demo_host demo_client "svelte" "REACT"
           demo_index demo_index_served).
Defined.

(** ** Case folding *)

Lemma lower_char_idemp c : Str.lower_char (Str.lower_char c) = Str.lower_char c.
Proof. by destruct c as [[] [] [] [] [] [] [] []]. Qed.

Lemma lower_idemp s : Str.lower (Str.lower s) = Str.lower s.
Proof.
  induction s as [|c s IH]; [done|]. cbn [Str.lower].
  by rewrite lower_char_idemp, IH.
Qed.

Lemma lower_char_capital c :
  Str.lower_char c = if is_capital c then small_of c else c.
Proof. reflexivity. Qed.

Lemma lower_char_small_of c :
  is_capital c = true → Str.lower_char (small_of c) = Str.lower_char c.
Proof. by destruct c as [[] [] [] [] [] [] [] []]. Qed.

Lemma same_letter_lower a b :
  same_letter a b = true → Str.lower_char a = Str.lower_char b.
Proof.
  unfold same_letter. rewrite !orb_true_iff, !andb_true_iff.
  rewrite !bool_decide_eq_true.
  intros [[->|[Ha ->]]|[Hb ->]]; [done| |]; by rewrite lower_char_small_of.
Qed.

Lemma same_spelling_lower s t :
  same_spelling s t = true → Str.lower s = Str.lower t.
Proof.
  revert t. induction s as [|a s IH]; intros [|b t]; try done.
  cbn [same_spelling Str.lower]. intros [Hab Hst]%andb_true_iff.
  by rewrite (same_letter_lower _ _ Hab), (IH _ Hst).
Qed.

Lemma same_spelling_lower_self s : same_spelling s (Str.lower s) = true.
Proof.
  induction s as [|a s IH]; [done|]. cbn [Str.lower same_spelling].
  rewrite IH, andb_true_r. unfold same_letter. rewrite lower_char_capital.
  destruct (is_capital a); cbn [andb].
  - by rewrite (bool_decide_eq_true_2 (small_of a = small_of a)), orb_true_r.
  - by rewrite bool_decide_eq_true_2.
Qed.

(** X3.  The search ignores case.  Two queries with the same spelling up
    to the case of their letters (each character the same, or a capital
    and its small letter) give the same outcome and the same state; so do
    two queries that are equal once lowercased, and a query and its
    lowercased form, which has the same spelling.  The same holds of the
    names: two entries whose names have the same spelling up to case
    pass the filter alike and get the same sort key. *)
Theorem search_case_insensitive up slug query query' c :
  (same_spelling query query' = true →
   search_doc_entries up slug query c = search_doc_entries up slug query' c) ∧
  (Str.lower query = Str.lower query' →
   search_doc_entries up slug query c = search_doc_entries up slug query' c) ∧
  search_doc_entries up slug (Str.lower query) c
  = search_doc_entries up slug query c ∧
  same_spelling query (Str.lower query) = true ∧
  (∀ (e e' : Entry) q,
     same_spelling (dict_get e "name" "") (dict_get e' "name" "") = true →
     (is_match q e ↔ is_match q e') ∧ sort_key q e = sort_key q e').
Proof.
  assert (∀ q q', Str.lower q = Str.lower q' →
            search_doc_entries up slug q c = search_doc_entries up slug q' c)
    as Hsame.
  { intros q q' Hq. unfold search_doc_entries. by rewrite Hq. }
  split_and!.
  - intros Hs. by apply Hsame, same_spelling_lower.
  - apply Hsame.
  - apply Hsame, lower_idemp.
  - apply same_spelling_lower_self.
  - intros e e' q Hs%same_spelling_lower. unfold is_match, sort_key.
    by rewrite Hs.
Qed.

Example same_spelling_react :
  same_spelling "REACT" "react" = true ∧
  same_spelling "rEaCt" "REACT" = true ∧
  same_spelling "react" "preact" = false ∧
  same_spelling "a-b" "A_B" = false.
Proof. split_and!; reflexivity. Qed.

Example search_case_demo :
  search_doc_entries demo_host "svelte" "rEaCt" demo_client
  = search_doc_entries demo_host "svelte" "REACT" demo_client.
Proof. vm_compute. reflexivity. Qed.

(** ** Requests and the cache *)

Lemma get_doc_index_state up slug c :
  (get_doc_index up slug c).2 = logged c (index_url c slug).
Proof.
  unfold get_doc_index, bind, http_get, lift. cbn.
  destruct (up _ _) as [r|e]; cbn; [|done].
  by destruct (raise_for_status r) as [[]|e].
Qed.

Lemma get_doc_content_state up slug path c :
  (get_doc_content up slug path c).2 = logged c (content_url c slug path).
Proof.
  unfold get_doc_content, bind, http_get, lift, ret. cbn.
  destruct (up _ _) as [r|e]; cbn; [|done].
  by destruct (raise_for_status r) as [[]|e].
Qed.

Lemma search_doc_entries_state up slug query c :
  (search_doc_entries up slug query c).2 = logged c (index_url c slug).
Proof.
  unfold search_doc_entries, bind.
  pose proof (get_doc_index_state up slug c) as Hstate.
  destruct (get_doc_index up slug c) as [[index|e] c1]; cbn in *; subst c1;
    [|done].
  unfold lift. by destruct (index_entries index).
Qed.

(** X4.  One request, no retry, no index cache.  Whatever the host
    answers, a search makes exactly one request, for the index of the
    slug, and a content fetch makes exactly one request, for
    [base/docs/slug/path.html]; neither touches the catalog cache.  The
    index is not memoized: a second search asks for it again.  The
    content fetch returns exactly when the host answers with a 2xx
    status, and then returns the body as it is. *)
Theorem one_request_per_call up slug query path c :
  (search_doc_entries up slug query c).2 = logged c (index_url c slug) ∧
  (get_doc_content up slug path c).2 = logged c (content_url c slug path) ∧
  requests
    (search_doc_entries up slug query (search_doc_entries up slug query c).2).2
  = requests c ++ [index_url c slug; index_url c slug] ∧
  (∀ body, (get_doc_content up slug path c).1 = Ok body ↔
     ∃ r, up (length (requests c)) (content_url c slug path) = Ok r ∧
          is_success r = true ∧ text r = body).
Proof.
  split_and!.
  - apply search_doc_entries_state.
  - apply get_doc_content_state.
  - rewrite !search_doc_entries_state. cbn. by rewrite <-app_assoc.
  - intros body. unfold get_doc_content, bind, http_get, lift, ret. cbn.
    destruct (up _ _) as [r|e]; cbn.
    + unfold raise_for_status. destruct (is_success r) eqn:Hs; cbn.
      * split; [intros [= <-]; by exists r|]. by intros (? & [= <-] & _ & <-).
      * split; [done|]. intros (? & [= <-] & ? & _). congruence.
    + split; [done|]. by intros (? & ? & _).
Qed.

Lemma page_of_entry_state up tc slug include_sections entry c :
  (page_of_entry up tc slug include_sections entry c).2
  = logged_all c (if include_sections && has_path entry
                  then [entry_url c slug entry] else []).
Proof.
  destruct (include_sections && has_path entry) eqn:Hfetch.
  - apply andb_true_iff in Hfetch as [-> Hpath].
    by rewrite page_of_entry_fetch.
  - rewrite page_of_entry_skip by done. by rewrite logged_all_nil.
Qed.

Lemma logged_all_app c urls urls' :
  logged_all (logged_all c urls) urls' = logged_all c (urls ++ urls').
Proof. unfold logged_all. cbn. by rewrite app_assoc. Qed.

Lemma process_entries_state up tc slug include_sections c0 entries :
  ∀ pages c, base_url c = base_url c0 →
    ∃ urls,
      (process_entries up tc slug include_sections pages entries c).2
      = logged_all c urls ∧
      urls `prefix_of`
        (if include_sections then content_requests c0 slug entries else []).
Proof.
  induction entries as [|entry rest IH]; intros pages c Hbase.
  - exists []. cbn. rewrite logged_all_nil. split; [done|].
    by destruct include_sections.
  - cbn [process_entries]. unfold bind.
    pose proof (page_of_entry_state up tc slug include_sections entry c)
      as Hstate.
    assert (entry_url c slug entry = entry_url c0 slug entry) as Hurl.
    { unfold entry_url, content_url. by rewrite Hbase. }
    rewrite Hurl in Hstate.
    assert ((if include_sections
             then content_requests c0 slug (entry :: rest) else [])
            = (if include_sections && has_path entry
               then [entry_url c0 slug entry] else [])
              ++ (if include_sections then content_requests c0 slug rest
                  else [])) as Hsplit.
    { unfold content_requests. rewrite filter_cons.
      destruct include_sections; [|done]. cbn [andb].
      destruct (has_path entry); [by rewrite decide_True|by rewrite decide_False]. }
    rewrite Hsplit.
    destruct (page_of_entry _ _ _ _ _ _) as [[page|e] c1]; cbn in Hstate;
      subst c1.
    + destruct (IH (pages ++ [page]) (logged_all c
                  (if include_sections && has_path entry
                   then [entry_url c0 slug entry] else [])))
        as (urls & Hurls & Hprefix); [done|].
      eexists. rewrite Hurls, logged_all_app. split; [done|].
      by apply prefix_app.
    + eexists. split; [done|]. by apply prefix_app_r.
Qed.

(** X5.  What a listing leaves behind.  Whatever the host and the tools
    do, and whether the listing returns or raises, it keeps the base URL
    and the catalog cache, and it adds to the request log the URL of the
    index and then content URLs only, in the order of the index, one for
    each entry with a path that it reached; without sections it adds the
    URL of the index alone. *)
Theorem listing_requests up tc slug include_sections c :
  ∃ urls,
    (list_all_docset_pages up tc slug include_sections c).2
    = logged_all c (index_url c slug :: urls) ∧
    (include_sections = false → urls = []) ∧
    (∀ index entries,
       (get_doc_index up slug c).1 = Ok index →
       index_entries index = Ok entries →
       urls `prefix_of` content_requests c slug entries) ∧
    ((∀ index, (get_doc_index up slug c).1 = Ok index →
        ¬ is_ok (index_entries index)) → urls = []).
Proof.
  unfold list_all_docset_pages, try_except, bind.
  pose proof (get_doc_index_state up slug c) as Hstate.
  destruct (get_doc_index up slug c) as [[index|e] c1]; cbn in Hstate;
    subst c1; cbn [fst].
  - unfold lift. destruct (index_entries index) as [entries|e] eqn:Hentries.
    + destruct (process_entries_state up tc slug include_sections c entries
                  [] (logged c (index_url c slug))) as (urls & Hurls & Hpre);
        [done|].
      exists urls. split_and!.
      * destruct (process_entries _ _ _ _ _ _ _) as [[pages|e] c2];
          cbn in Hurls; subst c2.
        -- by rewrite logged_all_cons.
        -- destruct (caught_by Exception e); cbn; by rewrite logged_all_cons.
      * intros ->. by apply prefix_nil_inv in Hpre.
      * intros ?? [= <-] Hsame. rewrite Hentries in Hsame.
        injection Hsame as <-. by destruct include_sections;
          [|apply prefix_nil_inv in Hpre as ->; apply prefix_nil].
      * intros Hno. exfalso. apply (Hno index eq_refl). by rewrite Hentries.
    + exists []. split_and!; [|done| |done].
      * by destruct (caught_by Exception e).
      * intros. apply prefix_nil.
  - exists []. split_and!; [|done| |done].
    + by destruct (caught_by Exception e).
    + intros. apply prefix_nil.
Qed.

Example listing_requests_cancelled :
  requests
    (list_all_docset_pages
       (λ n url, match n with
                 | O => ok_json (JIndex listing_index)
                 | 1 => ok_text page_a
                 | _ => Raise (mk_exc CancelledError "")
                 end)
       listing_tools "demo" true demo_client).2
  = [ "http://localhost:9292/docs/demo/index.json";
      "http://localhost:9292/docs/demo/a.html";
      "http://localhost:9292/docs/demo/missing.html" ].
Proof. vm_compute. reflexivity. Qed.

(** X6.  How the listing reports a failure of its own.  When the request
    for the index fails with an error, or its body is no JSON object,
    the listing raises a plain [Exception] whose text is [Failed to list
    pages for], the slug, a colon and the text of the cause; the class of
    the cause is not kept, and no content request is made. *)
Theorem listing_failure_wrapped up tc slug include_sections c e :
  ((get_doc_index up slug c).1 = Raise e ∨
   ∃ index, (get_doc_index up slug c).1 = Ok index ∧
            index_entries index = Raise e) →
  caught_by Exception e = true →
  list_all_docset_pages up tc slug include_sections c
  = (Raise (mk_exc Exception
              ("Failed to list pages for " +:+ slug +:+ ": " +:+ exc_msg e)),
     logged c (index_url c slug)).
Proof.
  intros Hfail Hcaught. unfold list_all_docset_pages, try_except, bind.
  pose proof (get_doc_index_state up slug c) as Hstate.
  destruct (get_doc_index up slug c) as [[index|e'] c1]; cbn in Hstate, Hfail;
    subst c1.
  - destruct Hfail as [?|(? & [= <-] & Hentries)]; [done|].
    unfold lift. rewrite Hentries. by rewrite Hcaught.
  - destruct Hfail as [[= <-]|(? & ? & _)]; [|done]. by rewrite Hcaught.
Qed.

Lemma listing_failure_wrapped_witness :
  list_all_docset_pages demo_host bare_tools "react" true demo_client
  = (Raise (mk_exc Exception
              ("Failed to list pages for " +:+ "react" +:+ ": "
               +:+ exc_msg (mk_exc HTTPStatusError "HTTP status error"))),
     logged demo_client (index_url demo_client "react")).
Proof.
  apply (listing_failure_wrapped demo_host bare_tools "react" true demo_client
           (mk_exc HTTPStatusError "HTTP status error")).
  - left. reflexivity.
  - reflexivity.
Defined.

(** ** The title of a page *)

Lemma find_title_step selector rest parsed :
  find_title (selector :: rest) parsed
  = match title_candidate selector parsed with
    | Some s => Some s
    | None => find_title rest parsed
    end.
Proof.
  cbn [find_title]. unfold title_candidate, trimmed_text.
  destruct (select_one selector parsed) as [t|]; [|done].
  by destruct (Str.is_empty _).
Qed.

Lemma find_title_Some selectors parsed s :
  find_title selectors parsed = Some s ↔
  ∃ before selector after,
    selectors = before ++ selector :: after ∧
    title_candidate selector parsed = Some s ∧
    Forall (λ sel, title_candidate sel parsed = None) before.
Proof.
  induction selectors as [|sel rest IH].
  - split; [done|]. intros (before & ? & ? & Heq & _). by destruct before.
  - rewrite find_title_step.
    destruct (title_candidate sel parsed) as [s'|] eqn:Hc.
    + split.
      * intros [= ->]. by exists [], sel, rest.
      * intros ([|b before] & selector & after & Heq & Hs & Hbefore).
        -- injection Heq as -> ->. congruence.
        -- injection Heq as -> ->. apply Forall_cons in Hbefore as [Hb _].
           congruence.
    + rewrite IH. split.
      * intros (before & selector & after & -> & Hs & Hbefore).
        exists (sel :: before), selector, after. split_and!; [done..|].
        by constructor.
      * intros ([|b before] & selector & after & Heq & Hs & Hbefore).
        -- injection Heq as -> ->. congruence.
        -- injection Heq as -> ->. apply Forall_cons in Hbefore as [_ Hbefore].
           by exists before, selector, after.
Qed.

Lemma find_title_None selectors parsed :
  find_title selectors parsed = None ↔
  Forall (λ sel, title_candidate sel parsed = None) selectors.
Proof.
  induction selectors as [|sel rest IH]; [by split; [constructor|]|].
  rewrite find_title_step, Forall_cons, <-IH.
  destruct (title_candidate sel parsed); naive_solver.
Qed.

Lemma title_candidate_nonempty selector parsed s :
  title_candidate selector parsed = Some s → s ≠ "".
Proof.
  unfold title_candidate. destruct (select_one selector parsed) as [t|]; [|done].
  destruct (Str.is_empty (trimmed_text t)) eqn:He; [done|].
  intros [= <-]. by apply is_empty_false.
Qed.

(** X7.  Which title a page gets.  When the parser accepts the fragment,
    the selectors [h1], [title], [.page-title], [.doc-title] and
    [.main-title] are tried in this order, each one through its first
    match in document order only: the title is the trimmed text of the
    first match of the earliest selector whose first match has text
    after trimming, and there is no title exactly when no selector
    offers one.  So a first [h1] with text wins over every other
    selector, a title is never empty, and an [h1] that comes after an
    empty first [h1] is never used. *)
Theorem title_precedence tc html parsed :
  html_parser tc html = Ok parsed →
  ∃ info,
    extract_page_info tc html = Ok info ∧
    select_one "h1" parsed
    = head (filter (λ t, tag_name t = "h1") (tags parsed)) ∧
    (∀ t, select_one "h1" parsed = Some t → trimmed_text t ≠ "" →
       pi_title info = Some (trimmed_text t)) ∧
    (∀ s, pi_title info = Some s ↔
       ∃ before selector after,
         title_selectors = before ++ selector :: after ∧
         title_candidate selector parsed = Some s ∧
         Forall (λ sel, title_candidate sel parsed = None) before) ∧
    (pi_title info = None ↔
       Forall (λ sel, title_candidate sel parsed = None) title_selectors) ∧
    (∀ s, pi_title info = Some s → s ≠ "").
Proof.
  intros Hparse. eexists. split.
  { unfold extract_page_info. rewrite Hparse. cbn [obind].
    rewrite sections_outline. cbn [obind]. reflexivity. }
  cbn [pi_title]. split_and!.
  - reflexivity.
  - intros t Ht Hne. unfold title_selectors. rewrite find_title_step.
    unfold title_candidate. rewrite Ht.
    apply is_empty_false in Hne. by rewrite Hne.
  - intros s. apply find_title_Some.
  - apply find_title_None.
  - intros s (before & selector & after & _ & Hs & _)%find_title_Some.
    by eapply title_candidate_nonempty.
Qed.

Lemma title_precedence_witness :
  ∃ info,
    extract_page_info bare_tools headings_fragment = Ok info ∧
    select_one "h1" headings_soup
    = head (filter (λ t, tag_name t = "h1") (tags headings_soup)) ∧
    (∀ t, select_one "h1" headings_soup = Some t → trimmed_text t ≠ "" →
       pi_title info = Some (trimmed_text t)) ∧
    (∀ s, pi_title info = Some s ↔
       ∃ before selector after,
         title_selectors = before ++ selector :: after ∧
         title_candidate selector headings_soup = Some s ∧
         Forall (λ sel, title_candidate sel headings_soup = None) before) ∧
    (pi_title info = None ↔
       Forall (λ sel, title_candidate sel headings_soup = None) title_selectors) ∧
    (∀ s, pi_title info = Some s → s ≠ "").
Proof.
  apply (title_precedence bare_tools headings_fragment headings_soup).
  reflexivity.
Defined.

(** The first [h1] is empty: the second one is not looked at, the
    [title] tag gives the title; without it the class selector would. *)
Example title_skips_later_h1 :
  find_title title_selectors two_h1_soup = Some "Doc" ∧
  find_title [".page-title"] two_h1_soup = Some "Banner".
Proof. split; vm_compute; reflexivity. Qed.

(** X8.  The page info extractor fails only with the parser: it raises
    exactly when [BeautifulSoup] raises, with the same exception; the
    loop over the headings, with its [int(heading.name[1])], never
    raises. *)
Theorem page_info_raises_with_parser tc html :
  (∀ e, extract_page_info tc html = Raise e ↔ html_parser tc html = Raise e) ∧
  (∀ parsed, html_parser tc html = Ok parsed →
     extract_page_info tc html
     = Ok {| pi_title := find_title title_selectors parsed;
             pi_sections := outline parsed |}) ∧
  (∀ headings, collect_sections [] (find_all heading_names headings)
               = Ok (outline headings)).
Proof.
  split_and!.
  - intros e. unfold extract_page_info.
    destruct (html_parser tc html) as [parsed|e']; cbn [obind].
    + rewrite sections_outline. cbn [obind]. split; discriminate.
    + split; by intros [= ->].
  - intros parsed Hparse. unfold extract_page_info. rewrite Hparse.
    cbn [obind]. by rewrite sections_outline.
  - apply sections_outline.
Qed.

(** ** The naive text is a fixed point *)

Lemma splitlines_single s :
  all_chars (λ c, negb (Str.is_linebreak c)) s = true → s ≠ "" →
  Str.splitlines s = [s].
Proof.
  induction s as [|c s IH]; [done|]. cbn [all_chars].
  intros [Hc Hs]%andb_true_iff _. apply negb_true_iff in Hc.
  cbn [Str.splitlines]. rewrite Hc.
  destruct s as [|c' s]; [done|]. by rewrite IH.
Qed.

Lemma lstrip_fixed s : not_space_at (first_char s) → Str.lstrip s = s.
Proof.
  destruct s as [|c s]; [done|]. intros H. cbn [Str.lstrip].
  by rewrite (H c eq_refl).
Qed.

Lemma rstrip_fixed s : not_space_at (last_char s) → Str.rstrip s = s.
Proof.
  induction s as [|c s IH]; [done|]. intros H. cbn [Str.rstrip].
  destruct s as [|c' s].
  - cbn. by rewrite (H c eq_refl).
  - rewrite IH by done. cbn [Str.is_empty]. by rewrite andb_false_r.
Qed.

Lemma split2_single s : no_double_space s = true → Str.split2 s = [s].
Proof.
  induction s as [|c s IH]; [done|]. cbn [no_double_space].
  intros [Hc Hs]%andb_true_iff. destruct s as [|c' s]; [done|].
  change (Str.split2 (String c (String c' s))) with
    (if bool_decide (c = " "%char) && bool_decide (c' = " "%char)
     then "" :: Str.split2 s
     else Str.cons_head c (Str.split2 (String c' s))).
  cbn in Hc. unfold is_blank in Hc. apply negb_true_iff in Hc.
  rewrite Hc. by rewrite IH.
Qed.

Lemma basic_text_of_collapsed s : collapsed s → basic_text [NText s] = s.
Proof.
  intros (Hb & Hd & Hf & Hl). destruct (decide (s = "")) as [->|Hne]; [done|].
  unfold basic_text, decompose_all, get_text, strings_of.
  cbn [flat_map decompose_in strings app Str.concat].
  rewrite append_empty_r, splitlines_single by done.
  cbn [fmap list_fmap flat_map]. unfold Str.strip.
  rewrite lstrip_fixed, rstrip_fixed by done.
  rewrite split2_single by done. cbn [app fmap list_fmap].
  rewrite lstrip_fixed, rstrip_fixed by done.
  rewrite filter_cons_True by done. by rewrite filter_nil.
Qed.

(** X9.  The naive strategy is idempotent.  A text whose white space is
    collapsed comes back unchanged when it is given to the naive
    strategy as one text node; the result of the naive strategy is such
    a text, so running the strategy on its own result changes nothing. *)
Theorem basic_text_idempotent parsed :
  basic_text [NText (basic_text parsed)] = basic_text parsed ∧
  (∀ s, collapsed s → basic_text [NText s] = s).
Proof.
  split.
  - apply basic_text_of_collapsed, basic_text_collapsed.
  - apply basic_text_of_collapsed.
Qed.

(** ** The tool adapter *)

Lemma falsy_false v : falsy v = false → ∃ s, v = Some s ∧ s ≠ "".
Proof.
  destruct v as [s|]; [|done]. cbn. intros Hs%is_empty_false. by exists s.
Qed.

Lemma search_doc_entries_ordinary up slug query c e :
  ordinary_host up → ordinary_json up →
  (search_doc_entries up slug query c).1 = Raise e →
  caught_by Exception e = true.
Proof.
  intros Hup Hjson. unfold search_doc_entries, get_doc_index, bind, http_get, lift.
  cbn. destruct (up _ _) as [r|e'] eqn:Hr; cbn.
  - unfold raise_for_status. destruct (is_success r); cbn.
    + destruct (json_body r) as [index|e'] eqn:Hj; cbn.
      * destruct index; cbn; by intros [= <-].
      * intros [= <-]. by eapply Hjson.
    + by intros [= <-].
  - intros [= <-]. by eapply Hup.
Qed.

(** X10.  The search tool.  A missing or empty slug or query is refused
    with a fixed text before any request is made: the empty query never
    reaches the search.  Otherwise the client makes exactly one request,
    and, the failures of the host being errors, the tool never raises: it
    returns one text, which reports the failure of the search when the
    search raised, says that nothing matched when the search returned
    nothing, and lists the results otherwise. *)
Theorem search_tool_replies up devdocs_url bullet arguments :
  let c0 := new_client devdocs_url in
  let call := call_tool_search_docs up devdocs_url bullet arguments in
  (falsy (arguments !! "slug") || falsy (arguments !! "query") = true →
   call = (Ok (text_reply "Error: Both 'slug' and 'query' are required"), c0)) ∧
  (∀ slug query,
     arguments !! "slug" = Some slug → arguments !! "query" = Some query →
     slug ≠ "" → query ≠ "" →
     call.2 = logged c0 (index_url c0 slug) ∧
     (ordinary_host up → ordinary_json up →
      ∃ text, call.1 = Ok (text_reply text) ∧
        match (search_doc_entries up slug query c0).1 with
        | Raise e => text = "Error searching " +:+ slug +:+ ": " +:+ exc_msg e
        | Ok [] => text = "No matches found for '" +:+ query +:+ "' in "
                          +:+ slug +:+ " documentation"
        | Ok matches =>
            text = foldl (λ result entry,
                            result +:+ search_line bullet entry)
                     ("Search results for '" +:+ query +:+ "' in " +:+ slug
                      +:+ ":" +:+ newline +:+ newline) matches
        end)).
Proof.
  intros c0 call. split.
  - intros Hfalsy. unfold call, call_tool_search_docs. by rewrite Hfalsy.
  - intros slug query Hslug Hquery Hs Hq.
    subst call c0. unfold call_tool_search_docs.
    set (c0 := new_client devdocs_url).
    rewrite Hslug, Hquery. cbn [falsy from_option]. unfold id.
    apply is_empty_false in Hs, Hq. rewrite Hs, Hq. cbn [orb].
    unfold try_except, bind.
    pose proof (search_doc_entries_state up slug query c0) as Hstate.
    pose proof (search_doc_entries_ordinary up slug query c0) as Hord.
    destruct (search_doc_entries up slug query c0) as [[matches|e] c1];
      cbn [fst snd] in Hstate, Hord; subst c1.
    + split.
      { by destruct (bool_decide (matches = [])); cbn -[caught_by]. }
      intros _ _. destruct matches as [|m ms].
      * rewrite bool_decide_eq_true_2 by done. cbn -[caught_by]. by eexists.
      * rewrite bool_decide_eq_false_2 by done. cbn -[caught_by]. by eexists.
    + split.
      { by destruct (caught_by Exception e); cbn -[caught_by]. }
      intros Hup Hjson. rewrite (Hord e Hup Hjson eq_refl). cbn -[caught_by]. by eexists.
Qed.

Example search_tool_empty_query :
  call_tool_search_docs demo_host "http://localhost:9292" "*"
    (args [("slug", "svelte"); ("query", "")])
  = (Ok (text_reply "Error: Both 'slug' and 'query' are required"),
     new_client "http://localhost:9292").
Proof. vm_compute. reflexivity. Qed.

Example search_tool_results :
  (call_tool_search_docs demo_host "http://localhost:9292" "*"
     (args [("slug", "svelte"); ("query", "store")])).1
  = Ok (text_reply
          ("Search results for 'store' in svelte:" +:+ newline +:+ newline
           +:+ "* Stores [Guide] - path: `stores`" +:+ newline)).
Proof. vm_compute. reflexivity. Qed.

Lemma extract_text_content_ordinary tc html e :
  ordinary_tools tc →
  extract_text_content tc html = Raise e → caught_by Exception e = true.
Proof.
  intros Htc. unfold extract_text_content, attempt.
  destruct (docs_cleaner tc html) as [markdown|e1] eqn:Hc; cbn -[caught_by_any].
  - destruct (_ && _); cbn -[caught_by_any]; [done|].
    destruct (pandoc tc html) as [stdout|e2] eqn:Hp; cbn -[caught_by_any].
    + destruct (negb _); cbn -[caught_by_any]; [done|].
      destruct (html_parser tc html) eqn:Hh; cbn; [done|].
      intros [= <-]. eapply Htc; eauto.
    + destruct (caught_by_any _ e2); cbn -[caught_by_any].
      * destruct (html_parser tc html) eqn:Hh; cbn; [done|].
        intros [= <-]. eapply Htc; eauto.
      * intros [= <-]. eapply Htc; eauto.
  - destruct (caught_by_any _ e1); cbn -[caught_by_any].
    + destruct (pandoc tc html) as [stdout|e2] eqn:Hp; cbn -[caught_by_any].
      * destruct (negb _); cbn -[caught_by_any]; [done|].
        destruct (html_parser tc html) eqn:Hh; cbn; [done|].
        intros [= <-]. eapply Htc; eauto.
      * destruct (caught_by_any _ e2); cbn -[caught_by_any].
        -- destruct (html_parser tc html) eqn:Hh; cbn; [done|].
           intros [= <-]. eapply Htc; eauto.
        -- intros [= <-]. eapply Htc; eauto.
    + intros [= <-]. eapply Htc; eauto.
Qed.

(** X11.  The content tool.  A missing or empty slug or path is refused
    before any request.  Otherwise the client makes exactly one request,
    for the page.  With the format [html] and a 2xx answer the reply is
    the body as it is, whatever the local tools would do.  With any
    other format the body goes through the text extraction.  The
    failures of the host and of the tools being errors, the tool never
    raises: a failed fetch or a failed extraction is reported in the
    text of the reply. *)
Theorem content_tool_replies up tc devdocs_url arguments :
  let c0 := new_client devdocs_url in
  let call := call_tool_get_doc_content up tc devdocs_url arguments in
  (falsy (arguments !! "slug") || falsy (arguments !! "path") = true →
   call = (Ok (text_reply "Error: Both 'slug' and 'path' are required"), c0)) ∧
  (∀ slug path,
     arguments !! "slug" = Some slug → arguments !! "path" = Some path →
     slug ≠ "" → path ≠ "" →
     call.2 = logged c0 (content_url c0 slug path) ∧
     (∀ body, (get_doc_content up slug path c0).1 = Ok body →
        arguments !! "format" = Some "html" →
        call.1 = Ok (text_reply body)) ∧
     (ordinary_host up → ordinary_tools tc →
      ∃ text, call.1 = Ok (text_reply text) ∧
        match (get_doc_content up slug path c0).1 with
        | Raise e => text = "Error getting content for " +:+ slug +:+ "/"
                            +:+ path +:+ ": " +:+ exc_msg e
        | Ok body =>
            if bool_decide (dict_get arguments "format" "text" = "html")
            then text = body
            else match extract_text_content tc body with
                 | Ok extracted => text = extracted
                 | Raise e => text = "Error getting content for " +:+ slug
                                     +:+ "/" +:+ path +:+ ": " +:+ exc_msg e
                 end
        end)).
Proof.
  intros c0 call. split.
  - intros Hfalsy. unfold call, call_tool_get_doc_content. by rewrite Hfalsy.
  - intros slug path Hslug Hpath Hs Hp.
    subst call c0. unfold call_tool_get_doc_content.
    set (c0 := new_client devdocs_url).
    rewrite Hslug, Hpath.
    cbn [falsy from_option]. unfold id. apply is_empty_false in Hs, Hp. rewrite Hs, Hp.
    cbn [orb]. unfold try_except, bind.
    pose proof (get_doc_content_state up slug path c0) as Hstate.
    assert (∀ e, (get_doc_content up slug path c0).1 = Raise e →
              ordinary_host up → caught_by Exception e = true) as Hord.
    { intros e He Hup. revert He.
      unfold get_doc_content, bind, http_get, lift, ret. cbn.
      destruct (up _ _) as [r|e'] eqn:Hr; cbn -[caught_by].
      - unfold raise_for_status. destruct (is_success r); cbn -[caught_by]; [done|].
        by intros [= <-].
      - intros [= <-]. by eapply Hup. }
    destruct (get_doc_content up slug path c0) as [[body|e] c1];
      cbn [fst snd] in Hstate, Hord; subst c1.
    + split_and!.
      * destruct (bool_decide _); cbn -[caught_by]; [done|]. unfold lift.
        destruct (extract_text_content tc body) as [t|e]; cbn -[caught_by]; [done|].
        by destruct (caught_by Exception e); cbn -[caught_by].
      * intros ? [= <-] Hfmt. unfold dict_get. rewrite Hfmt. cbn [default].
        by rewrite bool_decide_eq_true_2.
      * intros _ Htc. destruct (bool_decide _); cbn -[caught_by]; [by eexists|]. unfold lift.
        pose proof (extract_text_content_ordinary tc body) as Hext.
        destruct (extract_text_content tc body) as [t|e]; cbn -[caught_by]; [by eexists|].
        rewrite (Hext e Htc eq_refl). cbn -[caught_by]. by eexists.
    + split_and!.
      * by destruct (caught_by Exception e); cbn -[caught_by].
      * done.
      * intros Hup _. rewrite (Hord e eq_refl Hup). cbn -[caught_by]. by eexists.
Qed.

(** The failure that escapes [extract_text_content] stops at the tool. *)
Example content_tool_locked :
  (call_tool_get_doc_content page_host locked_tools "http://localhost:9292"
     (args [("slug", "svelte"); ("path", "intro")])).1
  = Ok (text_reply ("Error getting content for svelte/intro: "
                    +:+ "[Errno 13] Permission denied: 'pandoc'")) ∧
  (call_tool_get_doc_content page_host locked_tools "http://localhost:9292"
     (args [("slug", "svelte"); ("path", "intro"); ("format", "html")])).1
  = Ok (text_reply script_style_fragment) ∧
  (call_tool_get_doc_content page_host bare_tools "http://localhost:9292"
     (args [("slug", "svelte"); ("path", "intro"); ("format", "text")])).1
  = Ok (text_reply "Hello").
Proof. split_and!; vm_compute; reflexivity. Qed.

(** ** Edge cases of the catalog memo *)

(** X12.  What counts as an unset cache.  The memo is tested with
    [is None]: an empty catalog is memoized like any other, so the calls
    after it make no request; a body that parses to JSON [null] is
    returned as [None] and leaves the cache unset, so the next call asks
    the host again. *)
Theorem catalog_memo_edges up c :
  docs_cache c = JNull →
  (catalog_reply up c = Ok (JCatalog []) →
   ∀ up' n,
     calls up' n (get_available_docs up c).2
     = (replicate n (Ok (JCatalog [])), (get_available_docs up c).2) ∧
     requests (get_available_docs up c).2 = requests c ++ [catalog_url c]) ∧
  (catalog_reply up c = Ok JNull →
   get_available_docs up c = (Ok JNull, logged c (catalog_url c)) ∧
   ∀ up', requests (get_available_docs up' (get_available_docs up c).2).2
          = requests c ++ [catalog_url c; catalog_url c]).
Proof.
  intros Hnone. split.
  - intros Hreply up' n. rewrite get_available_docs_miss, Hreply by done.
    cbn [snd]. split; [|done]. by rewrite calls_hit.
  - intros Hreply. rewrite get_available_docs_miss, Hreply by done.
    split; [unfold logged; by rewrite Hnone|]. intros up'. cbn [snd].
    rewrite get_available_docs_miss by done. cbn. by rewrite <-app_assoc.
Qed.

Lemma catalog_memo_edges_witness :
  let up : Upstream := λ _ _, ok_json JNull in
  let c := demo_client in
  (catalog_reply up c = Ok (JCatalog []) →
   ∀ up' n,
     calls up' n (get_available_docs up c).2
     = (replicate n (Ok (JCatalog [])), (get_available_docs up c).2) ∧
     requests (get_available_docs up c).2 = requests c ++ [catalog_url c]) ∧
  (catalog_reply up c = Ok JNull →
   get_available_docs up c = (Ok JNull, logged c (catalog_url c)) ∧
   ∀ up', requests (get_available_docs up' (get_available_docs up c).2).2
          = requests c ++ [catalog_url c; catalog_url c]).
Proof.
  intros up c. apply (catalog_memo_edges up c). reflexivity.
Defined.

Example catalog_null_twice :
  (calls (λ _ _, ok_json JNull) 2 demo_client).1 = [Ok JNull; Ok JNull] ∧
  length (requests (calls (λ _ _, ok_json JNull) 2 demo_client).2) = 2 ∧
  length (requests (calls (λ _ _, ok_json (JCatalog [])) 2 demo_client).2) = 1.
Proof. split_and!; reflexivity. Qed.
